(** * type-speech: the real-time pipeline of [type_speech/engine.py]

    A shallow embedding of [SpeechToText] (audio capture, the streaming
    recognition session, the phrase reconciler and text injector) together
    with the properties of its specification.

    Conventions of the embedding.
    - A Python [str] is the list of its Unicode code points.
    - A Python [float] is a binary64 number: Rocq's primitive [float].
    - The object [self] is the record [SpeechToText]; a method is a
      computation in the monad [M], which threads [self], accumulates the
      trace of observable effects (log records, lock operations, flag
      stores, clipboard writes, key events, device calls) and may end in a
      raised exception.
    - What the operating system, the microphone and the recognition backend
      do is given to a method as an explicit script. *)

From Stdlib Require Import List String Ascii Bool NArith ZArith Lia.
From Stdlib Require Import Floats.PrimFloat Floats.SpecFloat Floats.FloatOps.
From Stdlib Require Import Numbers.Cyclic.Int63.Uint63.
Import ListNotations.

Local Open Scope list_scope.

(** ** Python strings *)

Module Str.

Definition char := N.
Definition str := list char.

(** A string literal of the source, as code points. *)
Definition lit (s : string) : str :=
  List.map N_of_ascii (list_ascii_of_string s).

Fixpoint eqb (a b : str) : bool :=
  match a, b with
  | [], [] => true
  | x :: a', y :: b' => N.eqb x y && eqb a' b'
  | _, _ => false
  end.

(** [prefix p s]: [s.startswith(p)]. *)
Fixpoint prefix (p s : str) : bool :=
  match p, s with
  | [], _ => true
  | x :: p', y :: s' => N.eqb x y && prefix p' s'
  | _ :: _, [] => false
  end.

(** [contains needle hay]: the Python test [needle in hay]. *)
Fixpoint contains (needle hay : str) : bool :=
  prefix needle hay ||
  match hay with
  | [] => false
  | _ :: hay' => contains needle hay'
  end.

(** [str.isspace] on one code point: the characters CPython's
    [_PyUnicode_IsWhitespace] accepts. *)
Definition is_space (c : char) : bool :=
  ((9 <=? c) && (c <=? 13) || (28 <=? c) && (c <=? 32)
   || (c =? 133) || (c =? 160) || (c =? 5760)
   || (8192 <=? c) && (c <=? 8202)
   || (c =? 8232) || (c =? 8233) || (c =? 8239) || (c =? 8287)
   || (c =? 12288))%N.

Fixpoint lstrip (s : str) : str :=
  match s with
  | [] => []
  | c :: s' => if is_space c then lstrip s' else s
  end.

Definition rstrip (s : str) : str := rev (lstrip (rev s)).

(** [s.strip()] *)
Definition strip (s : str) : str := rstrip (lstrip s).

Definition is_ascii (s : str) : bool := forallb (fun c => (c <? 128)%N) s.

(** [Py_TOLOWER] on an ASCII code point. *)
Definition ascii_tolower (c : char) : char :=
  if ((65 <=? c) && (c <=? 90))%N then (c + 32)%N else c.

Section Lower.
(** The case mapping of the Unicode database, which [str.lower] consults
    for a string that is not pure ASCII. *)
Variable unicode_lower : str -> str.

(** [s.lower()]: CPython lowers a pure-ASCII string byte by byte and
    sends any other string through the Unicode database. *)
Definition lower (s : str) : str :=
  if is_ascii s then List.map ascii_tolower s else unicode_lower s.
End Lower.

End Str.

Import Str.

(** ** Python floats *)

Module Float.

(** Round half to even of [n / 2^k] for [k >= 0]. *)
Definition div_pow2_half_even (n : Z) (k : Z) : Z :=
  let d := (2 ^ k)%Z in
  let q := (n / d)%Z in
  let r := (n mod d)%Z in
  match (2 * r ?= d)%Z with
  | Lt => q
  | Gt => (q + 1)%Z
  | Eq => if Z.even q then q else (q + 1)%Z
  end.

(** The integer nearest to [100 * m * 2^e], ties to even. *)
Definition hundredths (m : positive) (e : Z) : Z :=
  if (0 <=? e)%Z then (100 * Zpos m * 2 ^ e)%Z
  else div_pow2_half_even (100 * Zpos m) (- e).

(** [round(x, 2)] of the Python runtime on a float: the decimal expansion
    of [x] correctly rounded (ties to even) to two digits after the point,
    read back as the nearest binary64.  Zeros, infinities and NaN round to
    themselves, and so does a float too large to have a fractional part
    that matters (from [2^53 / 100] on, where floats are at least [2^-6]
    apart). *)
Definition round2 (x : float) : float :=
  match Prim2SF x with
  | S754_finite sg m e =>
      let h := hundredths m e in
      if (2 ^ 53 <=? h)%Z then x
      else
        let r := (PrimFloat.of_uint63 (Uint63.of_Z h) / 100)%float in
        if sg then (- r)%float else r
  | _ => x
  end.

End Float.

Set Warnings "-inexact-float".

(** ** Configuration ([type_speech/config.py]) *)

Record AudioConfig := {
  rate : Z;
  channels : Z;
  chunk : Z
}.

Record SpeechConfig := {
  accuracy_threshold : float
}.

Record Config := {
  audio : AudioConfig;
  speech : SpeechConfig
}.

(** The defaults of the pydantic models. *)
Definition default_config : Config :=
  {| audio := {| rate := 16000; channels := 1; chunk := 1600 |};
     speech := {| accuracy_threshold := 0.7 |} |}.

(** ** Data model *)

(** [@dataclass(frozen=True) class Phrase] *)
Record Phrase := {
  text : str;
  accuracy : float;   (* confidence for final or stability for interim *)
  is_final : bool     (* final or interim *)
}.

(** An audio chunk: the bytes of one block read from the device. *)
Definition AudioChunk := list N.

(** An instance of [Exception], as far as the code looks at it: [str(e)]. *)
Record Exception := { exc_text : str }.

(** The fields of [SpeechToText] that [__init__] sets.  A queue is the list
    of its items, oldest first; [None] is the sentinel. *)
Record SpeechToText := {
  audio_queue : list (option AudioChunk);
  transcription_text_queue : list (option Phrase);
  audio_stream : bool;          (* whether [_audio_stream] holds a stream *)
  is_recording : bool;
  is_transcribing : bool;
  interim_phrase : option Phrase
}.

(** [SpeechToText.__init__] *)
Definition init : SpeechToText :=
  {| audio_queue := [];
     transcription_text_queue := [];
     audio_stream := false;
     is_recording := false;
     is_transcribing := false;
     interim_phrase := None |}.

Definition set_audio_queue (q : list (option AudioChunk)) (s : SpeechToText) :=
  {| audio_queue := q;
     transcription_text_queue := s.(transcription_text_queue);
     audio_stream := s.(audio_stream);
     is_recording := s.(is_recording);
     is_transcribing := s.(is_transcribing);
     interim_phrase := s.(interim_phrase) |}.

Definition set_transcription_text_queue (q : list (option Phrase))
    (s : SpeechToText) :=
  {| audio_queue := s.(audio_queue);
     transcription_text_queue := q;
     audio_stream := s.(audio_stream);
     is_recording := s.(is_recording);
     is_transcribing := s.(is_transcribing);
     interim_phrase := s.(interim_phrase) |}.

Definition set_audio_stream (b : bool) (s : SpeechToText) :=
  {| audio_queue := s.(audio_queue);
     transcription_text_queue := s.(transcription_text_queue);
     audio_stream := b;
     is_recording := s.(is_recording);
     is_transcribing := s.(is_transcribing);
     interim_phrase := s.(interim_phrase) |}.

Definition set_is_recording (b : bool) (s : SpeechToText) :=
  {| audio_queue := s.(audio_queue);
     transcription_text_queue := s.(transcription_text_queue);
     audio_stream := s.(audio_stream);
     is_recording := b;
     is_transcribing := s.(is_transcribing);
     interim_phrase := s.(interim_phrase) |}.

Definition set_is_transcribing (b : bool) (s : SpeechToText) :=
  {| audio_queue := s.(audio_queue);
     transcription_text_queue := s.(transcription_text_queue);
     audio_stream := s.(audio_stream);
     is_recording := s.(is_recording);
     is_transcribing := b;
     interim_phrase := s.(interim_phrase) |}.

Definition set_interim_phrase (p : option Phrase) (s : SpeechToText) :=
  {| audio_queue := s.(audio_queue);
     transcription_text_queue := s.(transcription_text_queue);
     audio_stream := s.(audio_stream);
     is_recording := s.(is_recording);
     is_transcribing := s.(is_transcribing);
     interim_phrase := p |}.

(** ** Observable effects *)

Inductive level := DEBUG | INFO | WARNING | ERROR | CRITICAL.

(** The key of [press_ctrl_plus]: [Literal["V", "Z"]]. *)
Inductive hotkey := KeyV | KeyZ.

(** The log records of [engine.py], one constructor per call of the logger,
    carrying the values its f-string interpolates. *)
Inductive message :=
| Pressed (key : hotkey)            (* "Pressed CTRL+{key}" *)
| LoadingCredentials                (* "Loading credentials from: {credentials_path}" *)
| CredentialsFailed (e : Exception) (* "Failed to load credentials from file: {e}" *)
| RecordingAlready                  (* "Recording already in progress, ignoring start request" *)
| InitializingDevice                (* "Initializing sounddevice for recording..." *)
| DeviceOpened                      (* "Sounddevice stream opened for recording" *)
| DeviceOpenFailed (e : Exception)  (* "Failed to open sounddevice stream: {e}" *)
| CheckMicrophone                   (* "Make sure microphone is connected and selected in system, check permissions" *)
| StartingRecording                 (* "Starting audio recording..." *)
| Overflow                          (* "Audio buffer overflow detected" *)
| ReadFailed (e : Exception)        (* "Error reading audio from microphone: {e}" *)
| MicrophoneLost                    (* "Microphone may have disconnected or been captured by another application" *)
| RecordingStopped                  (* "Recording stopped" *)
| RecordingNotInProgress            (* "Recording not in progress, ignoring stop request" *)
| StopSignalSent                    (* "Stop recording signal sent" *)
| TranscriptionAlready              (* "Transcription already in progress, ignoring" *)
| StartingStreaming                 (* "Starting streaming to Google Speech-to-Text API..." *)
| CriticalError (e : Exception)     (* "Critical error in transcription stream: {e}" *)
| StoppedByStreamLimit              (* "Recording stopped due to stream duration limit. Ready for new recording." *)
| StoppedByError                    (* "Recording stopped due to error. Ready for new recording." *)
| StreamCompleted                   (* "Transcription stream completed" *)
| PhraseRepr (p : Phrase)           (* "{phrase}" *)
| LowAccuracy                       (* "Low accuracy, skipping" *)
| SameInterim                       (* "Interim phrase is the same, skipping" *)
| Final (t : str).                  (* "FINAL: {phrase.text}" *)

(** The two flags of the pipeline state, guarded by [recording_lock]. *)
Inductive flag := IsRecording | IsTranscribing.

Inductive event :=
| Log (lvl : level) (msg : message)
| Acquire                               (* [recording_lock.__enter__] *)
| Release                               (* [recording_lock.__exit__] *)
| Store (f : flag) (b : bool)           (* an assignment to a flag *)
| Copy (t : str)                        (* [pyperclip.copy(t)] *)
| Keybd (bVk : N) (dwFlags : N)         (* [win32api.keybd_event(bVk, 0, dwFlags, 0)] *)
| OpenInputStream (samplerate nchannels blocksize : Z)  (* [sd.InputStream(...)] *)
| StreamStart | StreamRead (frames : Z) | StreamStop | StreamClose
| Sleep                                 (* [time.sleep(0.001)] *)
| Request (audio_content : AudioChunk). (* a [StreamingRecognizeRequest] sent to the backend *)

Definition trace := list event.

(** ** The monad of methods *)

Definition M (A : Type) : Type :=
  SpeechToText -> (Exception + A) * SpeechToText * trace.

Definition ret {A} (a : A) : M A := fun s => (inr a, s, []).

Definition bind {A B} (m : M A) (k : A -> M B) : M B := fun s =>
  match m s with
  | (inl e, s1, t1) => (inl e, s1, t1)
  | (inr a, s1, t1) =>
      match k a s1 with
      | (r, s2, t2) => (r, s2, t1 ++ t2)
      end
  end.

Declare Scope py_scope.
Delimit Scope py_scope with py.
Notation "x <- m ;; k" := (bind m (fun x => k))
  (at level 61, m at next level, right associativity) : py_scope.
Notation "m ;; k" := (bind m (fun _ => k))
  (at level 61, right associativity) : py_scope.
Local Open Scope py_scope.

Definition raise {A} (e : Exception) : M A := fun s => (inl e, s, []).
Definition emit (ev : event) : M unit := fun s => (inr tt, s, [ev]).
Definition get {A} (f : SpeechToText -> A) : M A := fun s => (inr (f s), s, []).
Definition modify (f : SpeechToText -> SpeechToText) : M unit :=
  fun s => (inr tt, f s, []).

(** [try: m except Exception as e: h e] *)
Definition try_except {A} (m : M A) (h : Exception -> M A) : M A := fun s =>
  match m s with
  | (inl e, s1, t1) =>
      match h e s1 with
      | (r, s2, t2) => (r, s2, t1 ++ t2)
      end
  | done => done
  end.

(** [try: m finally: f]: [f] runs however [m] ends; an exception of [m] is
    raised again after it unless [f] raises one of its own. *)
Definition try_finally {A} (m : M A) (f : M unit) : M A := fun s =>
  match m s with
  | (r, s1, t1) =>
      match f s1 with
      | (inl e, s2, t2) => (inl e, s2, t1 ++ t2)
      | (inr _, s2, t2) => (r, s2, t1 ++ t2)
      end
  end.

(** [with self.recording_lock: m] *)
Definition with_lock {A} (m : M A) : M A :=
  emit Acquire ;; try_finally m (emit Release).

Definition log (lvl : level) (msg : message) : M unit := emit (Log lvl msg).

Definition store_is_recording (b : bool) : M unit :=
  modify (set_is_recording b) ;; emit (Store IsRecording b).

Definition store_is_transcribing (b : bool) : M unit :=
  modify (set_is_transcribing b) ;; emit (Store IsTranscribing b).

(** The parts of a finished call. *)
Definition result_of {A} (r : (Exception + A) * SpeechToText * trace) := fst (fst r).
Definition state_of {A} (r : (Exception + A) * SpeechToText * trace) := snd (fst r).
Definition trace_of {A} (r : (Exception + A) * SpeechToText * trace) := snd r.

(** ** The outside world, as scripts *)

(** The messages of the recognition service ([google.cloud.speech]). *)
Module Api.
Record SpeechRecognitionAlternative := {
  transcript : str;
  confidence : float
}.
Record SpeechRecognitionResult := {
  alternatives : list SpeechRecognitionAlternative;
  is_final : bool;
  stability : float
}.
Record StreamingRecognizeResponse := {
  results : list SpeechRecognitionResult
}.
End Api.

(** One recognition session as the backend plays it. *)
Record Backend := {
  credentials_error : option Exception;  (* [Credentials.from_service_account_file] raises *)
  demand : nat;                          (* items the client asks of the request generator *)
  responses : list Api.StreamingRecognizeResponse;
  stream_error : option Exception        (* the response iterator raises after [responses] *)
}.

(** One pass of the capture loop: what [read] does, and whether another
    thread calls [stop_recording] while this one is blocked in [read], or
    while it sleeps after the put. *)
Inductive read_result :=
| ReadOk (data : AudioChunk) (overflowed : bool)
| ReadRaises (e : Exception).

Record iteration := {
  read : read_result;
  stop_in_read : bool;
  stop_meanwhile : bool
}.

Record Microphone := {
  open_error : option Exception;   (* [sd.InputStream(...)] raises *)
  start_error : option Exception;  (* [_audio_stream.start()] raises *)
  iterations : list iteration
}.

(** How a call that loops on the outside world ends: it returns, or the
    script is over while the call still waits. *)
Inductive outcome := Returned | Waiting.

(** ** [engine.py] *)

Definition VK_CONTROL : N := 17.
Definition KEYEVENTF_KEYUP : N := 2.
Definition ord (key : hotkey) : N :=
  match key with KeyV => 86 | KeyZ => 90 end.

Definition press_ctrl_plus (key : hotkey) : M unit :=
  emit (Keybd VK_CONTROL 0) ;;
  emit (Keybd (ord key) 0) ;;
  emit (Keybd (ord key) KEYEVENTF_KEYUP) ;;
  emit (Keybd VK_CONTROL KEYEVENTF_KEYUP) ;;
  log DEBUG (Pressed key).

Definition credentials_not_found : Exception :=
  {| exc_text :=
       lit "Google Cloud credentials not found. Please check credentials file path." |}.

Definition get_google_credentials (be : Backend) : M unit :=
  try_except
    (log INFO LoadingCredentials ;;
     match be.(credentials_error) with
     | Some e => raise e
     | None => ret tt
     end)
    (fun e =>
       log ERROR (CredentialsFailed e) ;;
       raise credentials_not_found).

(** [for x in l: f x] *)
Fixpoint for_each {A} (f : A -> M unit) (l : list A) : M unit :=
  match l with
  | [] => ret tt
  | x :: l' => f x ;; for_each f l'
  end.

(** [generate_requests]: the chunks the generator yields when asked [n]
    times, and the queue it leaves.  It stops for good at the sentinel,
    which it takes off the queue, and waits on an empty queue. *)
Fixpoint generate_requests (n : nat) (audio_queue : list (option AudioChunk))
  : list AudioChunk * list (option AudioChunk) :=
  match n, audio_queue with
  | S n', Some data :: q =>
      match generate_requests n' q with
      | (rs, rest) => (data :: rs, rest)
      end
  | S _, None :: q => ([], q)
  | _, _ => ([], audio_queue)
  end.

(** [queue.put] on the two queues. *)
Definition audio_queue_put (item : option AudioChunk) : M unit :=
  modify (fun s => set_audio_queue (s.(audio_queue) ++ [item]) s).

Definition text_output_queue_put (item : option Phrase) : M unit :=
  modify (fun s =>
    set_transcription_text_queue (s.(transcription_text_queue) ++ [item]) s).

(** [while not audio_queue.empty(): audio_queue.get_nowait()] *)
Fixpoint drained (q : list (option AudioChunk)) : list (option AudioChunk) :=
  match q with
  | [] => []
  | _ :: q' => drained q'
  end.

Definition stop_recording : M unit :=
  go_on <- with_lock
    (r <- get is_recording ;;
     if negb r then log DEBUG RecordingNotInProgress ;; ret false
     else store_is_recording false ;; ret true) ;;
  if go_on : bool then
    log INFO StopSignalSent ;;
    audio_queue_put None
  else ret tt.

Section Engine.

Variable config : Config.
Variable unicode_lower : str -> str.

(** The body of [while self.is_recording:] over the script of its passes. *)
Fixpoint capture_loop (script : list iteration) : M outcome :=
  r <- get is_recording ;;
  if r : bool then
    match script with
    | [] => ret Waiting
    | it :: script' =>
        emit (StreamRead config.(audio).(chunk)) ;;
        (if it.(stop_in_read) then stop_recording else ret tt) ;;
        match it.(read) with
        | ReadOk data overflowed =>
            (if overflowed then log WARNING Overflow else ret tt) ;;
            audio_queue_put (Some data) ;;
            emit Sleep ;;
            (if it.(stop_meanwhile) then stop_recording else ret tt) ;;
            capture_loop script'
        | ReadRaises e =>
            log ERROR (ReadFailed e) ;;
            log ERROR MicrophoneLost ;;
            ret Returned
        end
    end
  else ret Returned.

Definition start_recording (mic : Microphone) : M outcome :=
  go_on <- with_lock
    (r <- get is_recording ;;
     if r : bool then log DEBUG RecordingAlready ;; ret false
     else store_is_recording true ;; ret true) ;;
  if go_on : bool then
    log INFO InitializingDevice ;;
    opened <- try_except
      (emit (OpenInputStream config.(audio).(rate) config.(audio).(channels)
               config.(audio).(chunk)) ;;
       match mic.(open_error) with Some e => raise e | None => ret tt end ;;
       modify (set_audio_stream true) ;;
       emit StreamStart ;;
       match mic.(start_error) with Some e => raise e | None => ret tt end ;;
       log INFO DeviceOpened ;;
       ret true)
      (fun e =>
         log ERROR (DeviceOpenFailed e) ;;
         log ERROR CheckMicrophone ;;
         with_lock (store_is_recording false) ;;
         ret false) ;;
    if opened : bool then
      log INFO StartingRecording ;;
      o <- capture_loop mic.(iterations) ;;
      match o with
      | Waiting => ret Waiting
      | Returned =>
          has_stream <- get audio_stream ;;
          (if has_stream : bool then emit StreamStop ;; emit StreamClose
           else ret tt) ;;
          with_lock (store_is_recording false) ;;
          log INFO RecordingStopped ;;
          ret Returned
      end
    else ret Returned
  else ret Returned.

(** [is_recording_active] *)
Definition is_recording_active : M bool :=
  with_lock (get is_recording).

(** The [Phrase] built from a result and its best alternative. *)
Definition phrase_of (result : Api.SpeechRecognitionResult)
    (alternative : Api.SpeechRecognitionAlternative) : Phrase :=
  {| text := strip alternative.(Api.transcript);
     is_final := result.(Api.is_final);
     accuracy :=
       Float.round2
         (if result.(Api.is_final) then alternative.(Api.confidence)
          else result.(Api.stability)) |}.

Definition on_result (result : Api.SpeechRecognitionResult) : M unit :=
  match result.(Api.alternatives) with
  | [] => ret tt
  | alternative :: _ => text_output_queue_put (Some (phrase_of result alternative))
  end.

Definition on_response (response : Api.StreamingRecognizeResponse) : M unit :=
  match response.(Api.results) with
  | [] => ret tt
  | rs => for_each on_result rs
  end.

(** The test of the [except] clause for the stream duration limit. *)
Definition is_stream_limit (e : Exception) : bool :=
  contains (lit "400") e.(exc_text)
  && contains (lit "maximum allowed stream duration") e.(exc_text).

(** The [except Exception as e:] clause of [transcribe_stream]. *)
Definition on_exception (e : Exception) : M unit :=
  log CRITICAL (CriticalError e) ;;
  if is_stream_limit e then
    with_lock (store_is_recording false ;; store_is_transcribing false) ;;
    modify (fun s => set_audio_queue (drained s.(audio_queue)) s) ;;
    log INFO StoppedByStreamLimit
  else
    with_lock (store_is_recording false ;; store_is_transcribing false) ;;
    log ERROR StoppedByError.

(** The [try] block of [transcribe_stream].  The client takes the requests
    off the generator in a thread of its own; here it takes what it asks for
    before the responses come, which changes neither the phrases put nor the
    queue left. *)
Definition stream_body (be : Backend) : M unit :=
  get_google_credentials be ;;
  log INFO StartingStreaming ;;
  q <- get audio_queue ;;
  match generate_requests be.(demand) q with
  | (requests, rest) =>
      modify (set_audio_queue rest) ;;
      for_each (fun r => emit (Request r)) requests ;;
      for_each on_response be.(responses) ;;
      match be.(stream_error) with
      | Some e => raise e
      | None => ret tt
      end
  end.

(** [transcribe_stream(self.audio_queue, self.transcription_text_queue)],
    the way both callers call it. *)
Definition transcribe_stream (be : Backend) : M unit :=
  go_on <- with_lock
    (t <- get is_transcribing ;;
     if t : bool then log DEBUG TranscriptionAlready ;; ret false
     else store_is_transcribing true ;; ret true) ;;
  if go_on : bool then
    try_finally
      (try_except (stream_body be) on_exception)
      (with_lock (store_is_transcribing false) ;;
       log INFO StreamCompleted)
  else ret tt.

Definition type_text (phrase : Phrase) : M unit :=
  log DEBUG (PhraseRepr phrase) ;;
  if negb phrase.(is_final)
     && (phrase.(accuracy) <? config.(speech).(accuracy_threshold))%float
  then log DEBUG LowAccuracy
  else
    emit (Copy (phrase.(text) ++ lit " ")) ;;
    interim <- get interim_phrase ;;
    match interim with
    | None => press_ctrl_plus KeyV
    | Some shown =>
        if Str.eqb (lower unicode_lower shown.(text))
                   (lower unicode_lower phrase.(text))
        then log DEBUG SameInterim
        else press_ctrl_plus KeyZ ;; press_ctrl_plus KeyV
    end ;;
    if phrase.(is_final) then
      modify (set_interim_phrase None) ;;
      log INFO (Final phrase.(text))
    else modify (set_interim_phrase (Some phrase)).

(** [_text_input_worker] over the items on the phrase queue. *)
Fixpoint text_input_loop (items : list (option Phrase)) : M outcome :=
  match items with
  | [] => ret Waiting
  | item :: rest =>
      modify (set_transcription_text_queue rest) ;;
      match item with
      | None => ret Returned
      | Some phrase => type_text phrase ;; text_input_loop rest
      end
  end.

Definition _text_input_worker : M outcome :=
  items <- get transcription_text_queue ;;
  text_input_loop items.

End Engine.

(** ** [config.py]: merging the user's settings into the defaults *)

Module Merge.

Section Values.

(** What a YAML file holds under a key other than a mapping. *)
Variable atom : Type.

(** A loaded YAML value: a mapping ([dict]) or anything else.  A [dict] is
    the sequence of its items in insertion order.  A mapping is modelled by
    its content: the model is of files without YAML aliases, where no
    mapping is reachable under two keys. *)
Inductive value :=
| Scalar (a : atom)
| Dict (d : dict)
with dict :=
| Empty
| Item (key : str) (v : value) (rest : dict).

(** [base[key]], [None] when [key not in base]. *)
Fixpoint lookup (key : str) (base : dict) : option value :=
  match base with
  | Empty => None
  | Item k v rest => if Str.eqb k key then Some v else lookup key rest
  end.

(** [base[key] = v]: the item of [key] keeps its place, a new key goes
    last. *)
Fixpoint assign (key : str) (v : value) (base : dict) : dict :=
  match base with
  | Empty => Item key v Empty
  | Item k w rest =>
      if Str.eqb k key then Item k v rest else Item k w (assign key v rest)
  end.

(** [list(base)]: the keys in order. *)
Fixpoint keys (base : dict) : list str :=
  match base with
  | Empty => []
  | Item k _ rest => k :: keys rest
  end.

(** [_merge_dicts(base, override)]: [base] after the call. *)
Fixpoint _merge_dicts (base override : dict) {struct override} : dict :=
  match override with
  | Empty => base
  | Item key v rest =>
      _merge_dicts
        match lookup key base, v with
        | Some (Dict sub), Dict o => assign key (Dict (_merge_dicts sub o)) base
        | _, _ => assign key v base
        end
        rest
  end.

(** The items of [a], then those of [b]. *)
Fixpoint append (a b : dict) : dict :=
  match a with
  | Empty => b
  | Item k v rest => Item k v (append rest b)
  end.

(** No key occurs twice among the items of the mapping itself. *)
Fixpoint unique_keys (d : dict) : Prop :=
  match d with
  | Empty => True
  | Item k _ rest => lookup k rest = None /\ unique_keys rest
  end.

(** What [_merge_dicts] leaves under a key that [override] maps to [v], when
    [old] is what [base] had there. *)
Definition merged (old : option value) (v : value) : value :=
  match old, v with
  | Some (Dict sub), Dict o => Dict (_merge_dicts sub o)
  | _, _ => v
  end.

End Values.

Arguments Scalar {atom} a.
Arguments Dict {atom} d.
Arguments Empty {atom}.
Arguments Item {atom} key v rest.
Arguments lookup {atom} key base.
Arguments assign {atom} key v base.
Arguments keys {atom} base.
Arguments _merge_dicts {atom} base override.
Arguments unique_keys {atom} d.
Arguments merged {atom} old v.
Arguments append {atom} a b.

End Merge.

(** ** [app/tray_app.py]: the callers of the engine *)

Module Tray.

(** The two images of the tray icon. *)
Inductive image := waiting_mode_icon | listening_mode_icon.

Definition image_eqb (a b : image) : bool :=
  match a, b with
  | waiting_mode_icon, waiting_mode_icon => true
  | listening_mode_icon, listening_mode_icon => true
  | _, _ => false
  end.

(** The fields of [TraySpeechApp] the handlers use. *)
Record TraySpeechApp := {
  app : SpeechToText;
  should_exit : bool;
  icon : image
}.

(** The target of a thread a handler starts. *)
Inductive target := start_recording_target | transcribe_stream_target.

Inductive tray_message :=
| StartingRecordingMsg       (* "Starting recording" *)
| StoppingRecordingMsg       (* "Stopping recording" *)
| ExitingMsg                 (* "Exiting application" *)
| ShuttingDownMsg            (* "Shutting down application" *)
| IconRevertedMsg            (* "Recording stopped, updated icon to waiting mode" *)
| MonitorErrorMsg (e : Exception).  (* "Error in recording monitor: {e}" *)

Inductive tray_event :=
| Engine (ev : event)                       (* an effect of a method of [self.app] *)
| TrayLog (lvl : level) (msg : tray_message)
| UpdateMenu                                (* [self.icon.update_menu()] *)
| ThreadStart (t : target)                  (* [threading.Thread(target=...).start()] *)
| RemoveAllHotkeys                          (* [keyboard.remove_all_hotkeys()] *)
| IconStop                                  (* [self.icon.stop()] *)
| MonitorSleep.                             (* [time.sleep(0.5)] *)

Definition T (A : Type) : Type :=
  TraySpeechApp -> (Exception + A) * TraySpeechApp * list tray_event.

Definition tret {A} (a : A) : T A := fun w => (inr a, w, []).

Definition tbind {A B} (m : T A) (k : A -> T B) : T B := fun w =>
  match m w with
  | (inl e, w1, t1) => (inl e, w1, t1)
  | (inr a, w1, t1) =>
      match k a w1 with
      | (r, w2, t2) => (r, w2, t1 ++ t2)
      end
  end.

Definition temit (ev : tray_event) : T unit := fun w => (inr tt, w, [ev]).

Definition set_app (s : SpeechToText) (w : TraySpeechApp) : TraySpeechApp :=
  {| app := s; should_exit := w.(should_exit); icon := w.(icon) |}.

Definition set_should_exit (b : bool) (w : TraySpeechApp) : TraySpeechApp :=
  {| app := w.(app); should_exit := b; icon := w.(icon) |}.

Definition set_icon (i : image) (w : TraySpeechApp) : TraySpeechApp :=
  {| app := w.(app); should_exit := w.(should_exit); icon := i |}.

(** A method of [self.app], called from the tray. *)
Definition on_app {A} (m : M A) : T A := fun w =>
  match m w.(app) with
  | (r, s, t) => (r, set_app s w, List.map Engine t)
  end.

(** [try: m except Exception as e: h e] *)
Definition ttry_except {A} (m : T A) (h : Exception -> T A) : T A := fun w =>
  match m w with
  | (inl e, w1, t1) =>
      match h e w1 with
      | (r, w2, t2) => (r, w2, t1 ++ t2)
      end
  | done => done
  end.

Declare Scope tray_scope.
Delimit Scope tray_scope with tray.
Notation "x <- m ;; k" := (tbind m (fun x => k))
  (at level 61, m at next level, right associativity) : tray_scope.
Notation "m ;; k" := (tbind m (fun _ => k))
  (at level 61, right associativity) : tray_scope.
Local Open Scope tray_scope.

Definition _update_icon (i : image) : T unit :=
  (fun w => (inr tt, set_icon i w, [])) ;;
  temit UpdateMenu.

Definition _on_start_hotkey : T unit :=
  active <- on_app is_recording_active ;;
  if negb active then
    temit (TrayLog INFO StartingRecordingMsg) ;;
    _update_icon listening_mode_icon ;;
    temit (ThreadStart start_recording_target) ;;
    temit (ThreadStart transcribe_stream_target)
  else tret tt.

Definition _on_stop_hotkey : T unit :=
  active <- on_app is_recording_active ;;
  if active : bool then
    temit (TrayLog INFO StoppingRecordingMsg) ;;
    on_app stop_recording ;;
    _update_icon waiting_mode_icon
  else tret tt.

Definition _on_start_stop_hotkey : T unit :=
  active <- on_app is_recording_active ;;
  if active : bool then _on_stop_hotkey else _on_start_hotkey.

Definition stop_app : T unit :=
  temit (TrayLog INFO ShuttingDownMsg) ;;
  (fun w => (inr tt, set_should_exit true w, [])) ;;
  on_app stop_recording ;;
  temit RemoveAllHotkeys ;;
  temit IconStop.

Definition _on_exit_hotkey : T unit :=
  temit (TrayLog INFO ExitingMsg) ;;
  stop_app.

(** One pass of the loop of [monitor_worker]. *)
Definition monitor_pass : T unit :=
  ttry_except
    (active <- on_app is_recording_active ;;
     if negb active then
       i <- (fun w => (inr w.(icon), w, [])) ;;
       if image_eqb i listening_mode_icon then
         _update_icon waiting_mode_icon ;;
         temit (TrayLog DEBUG IconRevertedMsg)
       else tret tt
     else tret tt)
    (fun e => temit (TrayLog ERROR (MonitorErrorMsg e))) ;;
  temit MonitorSleep.

Definition thread_starts (t : list tray_event) : list target :=
  flat_map (fun ev => match ev with ThreadStart x => [x] | _ => [] end) t.

End Tray.

(** ** Reading a trace *)

Definition is_keystroke (ev : event) : bool :=
  match ev with Keybd _ _ => true | _ => false end.

Definition is_injection (ev : event) : bool :=
  match ev with Keybd _ _ | Copy _ => true | _ => false end.

(** What the text injector did to the clipboard and the keyboard. *)
Definition injected (t : trace) : trace := filter is_injection t.

(** The key events alone. *)
Definition keystrokes (t : trace) : trace := filter is_keystroke t.

(** The four key events of CTRL+[key]. *)
Definition ctrl_plus (key : hotkey) : trace :=
  [Keybd VK_CONTROL 0; Keybd (ord key) 0;
   Keybd (ord key) KEYEVENTF_KEYUP; Keybd VK_CONTROL KEYEVENTF_KEYUP].

Definition paste : trace := ctrl_plus KeyV.
Definition undo : trace := ctrl_plus KeyZ.

(** How often CTRL+[key] was pressed: the key-down events of [key]. *)
Definition presses (key : hotkey) (t : trace) : nat :=
  List.length
    (filter (fun ev =>
               match ev with
               | Keybd vk fl => N.eqb vk (ord key) && N.eqb fl 0
               | _ => false
               end) t).

Definition interim (t : string) (a : float) : Phrase :=
  {| text := lit t; accuracy := a; is_final := false |}.

Definition final (t : string) (a : float) : Phrase :=
  {| text := lit t; accuracy := a; is_final := true |}.

(** ** Reading a call *)

(** The test that opens [type_text]. *)
Definition low_accuracy (config : Config) (p : Phrase) : bool :=
  negb p.(is_final) && (p.(accuracy) <? config.(speech).(accuracy_threshold))%float.

(** The effects of the branch of [type_text] on [interim_phrase]. *)
Definition replace_shown (unicode_lower : str -> str) (shown : option Phrase)
    (p : Phrase) : trace :=
  match shown with
  | None => paste ++ [Log DEBUG (Pressed KeyV)]
  | Some q =>
      if Str.eqb (lower unicode_lower q.(text)) (lower unicode_lower p.(text))
      then [Log DEBUG SameInterim]
      else undo ++ [Log DEBUG (Pressed KeyZ)] ++ paste ++ [Log DEBUG (Pressed KeyV)]
  end.

(** [t] is [s] without its surrounding whitespace: [s] is [t] between two
    runs of whitespace, and [t] neither starts nor ends with whitespace. *)
Definition stripped_of (s t : str) : Prop :=
  exists before after,
    s = before ++ t ++ after
    /\ Forall (fun c => is_space c = true) before
    /\ Forall (fun c => is_space c = true) after
    /\ match t with [] => True | c :: _ => is_space c = false end
    /\ match rev t with [] => True | c :: _ => is_space c = false end.

(** [h] is the integer nearest to [num / den], the even one of two that are
    equally near ([den] positive). *)
Definition nearest_even (num den h : Z) : Prop :=
  (2 * Z.abs (num - h * den) <= den)%Z
  /\ ((2 * Z.abs (num - h * den) = den)%Z -> Z.even h = true).

(** [y] is [x] rounded to two decimal places.  A finite [x] other than zero
    is [m * 2^e] up to its sign; [h] is then the integer nearest to a
    hundred times that, ties to even, and [y] is the float [h / 100] with
    the sign of [x], that is the binary64 nearest to the decimal with the
    two places.  From [h = 2^53] on, where floats are more than a hundredth
    apart, and for zeros, infinities and NaN, [y] is [x]. *)
Definition rounded_to_hundredths (x y : float) : Prop :=
  match Prim2SF x with
  | S754_finite sg m e =>
      exists h : Z,
        nearest_even (100 * Zpos m * 2 ^ Z.max e 0) (2 ^ Z.max (- e) 0) h
        /\ ((h < 2 ^ 53)%Z ->
            y = if sg : bool
                then (- (PrimFloat.of_uint63 (Uint63.of_Z h) / 100))%float
                else (PrimFloat.of_uint63 (Uint63.of_Z h) / 100)%float)
        /\ ((2 ^ 53 <= h)%Z -> y = x)
  | _ => y = x
  end.

(** The exception that reaches the [except] clause of [transcribe_stream]:
    the one [get_google_credentials] raises when the credentials do not
    load, else the one the response stream ends with. *)
Definition raised (be : Backend) : option Exception :=
  match be.(credentials_error) with
  | Some _ => Some credentials_not_found
  | None => be.(stream_error)
  end.

(** The audio queue at the moment the [try] block is left: untouched when
    the credentials do not load, else what the request generator left. *)
Definition queue_at_exit (be : Backend) (s : SpeechToText)
  : list (option AudioChunk) :=
  match be.(credentials_error) with
  | Some _ => s.(audio_queue)
  | None => snd (generate_requests be.(demand) s.(audio_queue))
  end.

(** The last steps of [transcribe_stream]: the [finally] clause. *)
Definition finally_steps : trace :=
  [Acquire; Store IsTranscribing false; Release; Log INFO StreamCompleted].

(** A phrase is the one the session builds from [result]. *)
Definition built_from (result : Api.SpeechRecognitionResult) (p : Phrase) : Prop :=
  exists alternative others,
    result.(Api.alternatives) = alternative :: others
    /\ p.(text) = strip alternative.(Api.transcript)
    /\ p.(is_final) = result.(Api.is_final)
    /\ p.(accuracy) =
         Float.round2 (if result.(Api.is_final)
                       then alternative.(Api.confidence)
                       else result.(Api.stability)).

(** A queue item is a phrase built from a result of a response of [be]. *)
Definition from_backend (be : Backend) (item : option Phrase) : Prop :=
  exists p response result,
    item = Some p
    /\ In response be.(responses)
    /\ In result response.(Api.results)
    /\ built_from result p.

(** The trace of the [except] clause for [e]. *)
Definition except_steps (e : Exception) : trace :=
  [Log CRITICAL (CriticalError e);
   Acquire; Store IsRecording false; Store IsTranscribing false; Release;
   if is_stream_limit e then Log INFO StoppedByStreamLimit
   else Log ERROR StoppedByError].

(** [m] never changes the field [f] of the object. *)
Definition keeps {F A} (f : SpeechToText -> F) (m : M A) : Prop :=
  forall s, f (state_of (m s)) = f s.

(** What the capture loop puts on the audio queue, pass by pass, from the
    script of its passes: the chunk of each pass in turn; the sentinel of a
    [stop_recording] during a read goes before the chunk of that read, the
    sentinel of one during the sleep goes after it; the loop ends with the
    first pass that meets a stop or whose read fails. *)
Fixpoint captured (script : list iteration) : list (option AudioChunk) :=
  match script with
  | [] => []
  | it :: script' =>
      match it.(read) with
      | ReadRaises _ => if it.(stop_in_read) then [None] else []
      | ReadOk data _ =>
          if it.(stop_in_read) then [None; Some data]
          else if it.(stop_meanwhile) then [Some data; None]
          else Some data :: captured script'
      end
  end.

(** Whether the capture loop leaves over this script, or the script is over
    while the loop still runs. *)
Fixpoint capture_outcome (script : list iteration) : outcome :=
  match script with
  | [] => Waiting
  | it :: script' =>
      match it.(read) with
      | ReadRaises _ => Returned
      | ReadOk _ _ =>
          if it.(stop_in_read) || it.(stop_meanwhile) then Returned
          else capture_outcome script'
      end
  end.

(** Whether a [stop_recording] of another thread found recording on during
    the passes the loop ran. *)
Fixpoint capture_stopped (script : list iteration) : bool :=
  match script with
  | [] => false
  | it :: script' =>
      match it.(read) with
      | ReadRaises _ => it.(stop_in_read)
      | ReadOk _ _ =>
          it.(stop_in_read) || it.(stop_meanwhile) || capture_stopped script'
      end
  end.


(** The exception that keeps the input device from opening, if any. *)
Definition device_failure (mic : Microphone) : option Exception :=
  match mic.(open_error) with
  | Some e => Some e
  | None => mic.(start_error)
  end.

Definition is_stream_read (ev : event) : bool :=
  match ev with StreamRead _ => true | _ => false end.

(** The last steps of a [start_recording] that leaves its loop. *)
Definition release_steps : trace :=
  [StreamStop; StreamClose; Acquire; Store IsRecording false; Release;
   Log INFO RecordingStopped].

(** The phrases of a list of results, in order: [phrase_of] the result and
    its first alternative, for each result that has one. *)
Definition best_phrases (rs : list Api.SpeechRecognitionResult) : list Phrase :=
  flat_map
    (fun r =>
       match r.(Api.alternatives) with
       | [] => []
       | alternative :: _ => [phrase_of r alternative]
       end) rs.

(** The phrases of a list of responses, in order. *)
Definition heard (resps : list Api.StreamingRecognizeResponse) : list Phrase :=
  flat_map (fun resp => best_phrases resp.(Api.results)) resps.

Definition is_request (ev : event) : bool :=
  match ev with Request _ => true | _ => false end.

(** ** Scenarios *)

Definition chunk0 : AudioChunk := [0%N; 0%N].
Definition chunk1 : AudioChunk := [1%N; 1%N].

(** A microphone that delivers one chunk; another thread calls
    [stop_recording] while the capture loop sleeps. *)
Definition mic_once : Microphone :=
  {| open_error := None;
     start_error := None;
     iterations :=
       [{| read := ReadOk chunk0 false;
           stop_in_read := false;
           stop_meanwhile := true |}] |}.

(** A microphone that delivers two chunks; another thread calls
    [stop_recording] while the second read is blocked. *)
Definition mic_stop_in_read : Microphone :=
  {| open_error := None;
     start_error := None;
     iterations :=
       [{| read := ReadOk chunk0 false;
           stop_in_read := false;
           stop_meanwhile := false |};
        {| read := ReadOk chunk1 false;
           stop_in_read := true;
           stop_meanwhile := false |}] |}.

(** A microphone that has delivered one chunk so far. *)
Definition mic_running : Microphone :=
  {| open_error := None;
     start_error := None;
     iterations :=
       [{| read := ReadOk chunk0 false;
           stop_in_read := false;
           stop_meanwhile := false |}] |}.

Definition one_result (t : string) (conf : float) (fin : bool) (stab : float)
  : Api.StreamingRecognizeResponse :=
  {| Api.results :=
       [{| Api.alternatives := [{| Api.transcript := lit t; Api.confidence := conf |}];
           Api.is_final := fin;
           Api.stability := stab |}] |}.

(** A session that hears the interim "he" and ends with the audio. *)
Definition be_he : Backend :=
  {| credentials_error := None;
     demand := 2;
     responses := [one_result " he" 0 false 0.9];
     stream_error := None |}.

(** A session that hears the final "hello" with confidence 0.8333. *)
Definition be_hello : Backend :=
  {| credentials_error := None;
     demand := 0;
     responses := [one_result "  hello " 0.8333 true 0];
     stream_error := None |}.

(** A session that fails at once with the given error text. *)
Definition be_fails (t : string) : Backend :=
  {| credentials_error := None;
     demand := 0;
     responses := [];
     stream_error := Some {| exc_text := lit t |} |}.

(** Recording is on and one chunk waits on the audio queue. *)
Definition recording_one_chunk : SpeechToText :=
  set_audio_queue [Some chunk0] (set_is_recording true init).

(** The interim "hello" is on screen. *)
Definition hello_shown : SpeechToText :=
  state_of (type_text default_config (fun t => t) (interim "hello" 0.9) init).

(** A microphone that another application holds. *)
Definition mic_broken : Microphone :=
  {| open_error := Some {| exc_text := lit "Device unavailable" |};
     start_error := None;
     iterations := [] |}.

(** A session whose credentials file is missing. *)
Definition be_no_credentials : Backend :=
  {| credentials_error := Some {| exc_text := lit "No such file or directory" |};
     demand := 3;
     responses := [one_result "hello" 0.9 true 0];
     stream_error := None |}.

(** The speech settings of a defaults file and of a user file. *)
Definition speech_defaults : Merge.dict str :=
  Merge.Item (lit "language_code") (Merge.Scalar (lit "ru-RU"))
    (Merge.Item (lit "model") (Merge.Scalar (lit "default")) Merge.Empty).

Definition speech_user : Merge.dict str :=
  Merge.Item (lit "model") (Merge.Scalar (lit "latest_long")) Merge.Empty.

Definition yaml_defaults : Merge.dict str :=
  Merge.Item (lit "audio") (Merge.Scalar (lit "16000"))
    (Merge.Item (lit "speech") (Merge.Dict speech_defaults) Merge.Empty).

Definition yaml_user : Merge.dict str :=
  Merge.Item (lit "speech") (Merge.Dict speech_user) Merge.Empty.

(** The tray while the engine is idle and the listening icon still shows. *)
Definition tray_idle_listening : Tray.TraySpeechApp :=
  {| Tray.app := init;
     Tray.should_exit := false;
     Tray.icon := Tray.listening_mode_icon |}.

(** ** Lemmas on floats and strings *)

Lemma div_pow2_half_even_nearest (n k : Z) :
  (0 <= n)%Z -> (0 < k)%Z ->
  nearest_even n (2 ^ k) (Float.div_pow2_half_even n k).
Proof.
  intros Hn Hk. unfold nearest_even, Float.div_pow2_half_even.
  assert (D : (0 < 2 ^ k)%Z) by (apply Z.pow_pos_nonneg; lia).
  pose proof (Z.div_mod n (2 ^ k) ltac:(lia)) as E.
  pose proof (Z.mod_pos_bound n (2 ^ k) D) as B.
  set (d := (2 ^ k)%Z) in *. set (q := (n / d)%Z) in *.
  set (r := (n mod d)%Z) in *. clearbody r q d.
  assert (E0 : (n - q * d = r)%Z) by (rewrite E; ring).
  assert (E1 : (n - (q + 1) * d = r - d)%Z) by (rewrite E; ring).
  destruct (Z.compare_spec (2 * r) d) as [C|C|C].
  - destruct (Z.even q) eqn:Ev.
    + rewrite E0. split; [lia|intros _; exact Ev].
    + rewrite E1. split; [lia|intros _].
      rewrite Z.even_add, Ev. reflexivity.
  - rewrite E0. split; [lia|intros T; exfalso; lia].
  - rewrite E1. split; [lia|intros T; exfalso; lia].
Qed.

(** [round2] rounds to two decimal places. *)
Lemma round2_rounds (x : float) : rounded_to_hundredths x (Float.round2 x).
Proof.
  unfold rounded_to_hundredths, Float.round2.
  destruct (Prim2SF x) as [sg| | |sg m e]; try reflexivity.
  exists (Float.hundredths m e). split; [|split].
  - unfold Float.hundredths. destruct (0 <=? e)%Z eqn:E.
    + apply Z.leb_le in E.
      rewrite (Z.max_l e 0), (Z.max_r (- e) 0) by lia.
      change (2 ^ 0)%Z with 1%Z. unfold nearest_even.
      replace (100 * Z.pos m * 2 ^ e - 100 * Z.pos m * 2 ^ e * 1)%Z with 0%Z
        by lia.
      simpl. split; [lia|discriminate].
    + apply Z.leb_gt in E.
      rewrite (Z.max_r e 0), (Z.max_l (- e) 0) by lia.
      change (2 ^ 0)%Z with 1%Z. rewrite Z.mul_1_r.
      apply div_pow2_half_even_nearest; lia.
  - intros L. destruct (2 ^ 53 <=? Float.hundredths m e)%Z eqn:B.
    + apply Z.leb_le in B. exfalso. apply (Z.lt_irrefl (2 ^ 53)).
      eapply Z.le_lt_trans; eassumption.
    + destruct sg; reflexivity.
  - intros L. apply Z.leb_le in L. now rewrite L.
Qed.

Lemma lstrip_spec (s : str) :
  exists before,
    s = before ++ lstrip s
    /\ Forall (fun c => is_space c = true) before
    /\ match lstrip s with [] => True | c :: _ => is_space c = false end.
Proof.
  induction s as [|c s IH]; simpl.
  - exists []. repeat split. constructor.
  - destruct (is_space c) eqn:E.
    + destruct IH as (before & Es & F & H).
      exists (c :: before). split; [simpl; now f_equal|].
      split; [now constructor|exact H].
    + exists []. repeat split; [constructor|exact E].
Qed.

(** [strip] strips the surrounding whitespace. *)
Lemma strip_strips (s : str) : stripped_of s (strip s).
Proof.
  unfold stripped_of, strip, rstrip.
  destruct (lstrip_spec s) as (before & Es & Fb & Hb).
  destruct (lstrip_spec (rev (lstrip s))) as (tail & Et & Ft & Ht).
  set (u := lstrip s) in *. set (v := lstrip (rev u)) in *.
  assert (Eu : u = rev v ++ rev tail).
  { rewrite <- rev_app_distr, <- Et. now rewrite rev_involutive. }
  exists before, (rev tail). split; [|split; [|split; [|split]]].
  - now rewrite <- Eu.
  - exact Fb.
  - apply Forall_rev. exact Ft.
  - destruct (rev v) as [|c w] eqn:Ev; [exact I|].
    rewrite Eu in Hb. exact Hb.
  - rewrite rev_involutive. exact Ht.
Qed.

Lemma eqb_refl (a : str) : Str.eqb a a = true.
Proof.
  induction a as [|c a IH]; simpl; [reflexivity|].
  now rewrite N.eqb_refl, IH.
Qed.

Lemma eqb_eq (a b : str) : Str.eqb a b = true <-> a = b.
Proof.
  split; [|intros ->; apply eqb_refl].
  revert b; induction a as [|c a IH]; destruct b as [|d b]; simpl;
    try discriminate; [reflexivity|].
  intros H. apply andb_true_iff in H as [Hc Hr].
  apply N.eqb_eq in Hc. apply IH in Hr. congruence.
Qed.

(** ** The text injector *)

Section Injector.

Variable config : Config.
Variable unicode_lower : str -> str.

Local Abbreviation threshold := (config.(speech).(accuracy_threshold)).
Local Abbreviation same_text a b :=
  (Str.eqb (lower unicode_lower a.(text)) (lower unicode_lower b.(text))).

Lemma type_text_dropped (p : Phrase) (s : SpeechToText) :
  low_accuracy config p = true ->
  type_text config unicode_lower p s
  = (inr tt, s, [Log DEBUG (PhraseRepr p); Log DEBUG LowAccuracy]).
Proof.
  unfold low_accuracy, type_text, bind, log, emit; simpl.
  intros ->. reflexivity.
Qed.

Lemma type_text_accepted (p : Phrase) (s : SpeechToText) :
  low_accuracy config p = false ->
  type_text config unicode_lower p s =
    (inr tt,
     set_interim_phrase (if p.(is_final) then None else Some p) s,
     Log DEBUG (PhraseRepr p) :: Copy (p.(text) ++ lit " ")
       :: replace_shown unicode_lower s.(interim_phrase) p
       ++ (if p.(is_final) then [Log INFO (Final p.(text))] else [])).
Proof.
  unfold low_accuracy, type_text, bind, log, emit, get, modify; simpl.
  intros ->. unfold replace_shown.
  destruct (interim_phrase s) as [q|]; simpl.
  - destruct (same_text q p); destruct (is_final p); reflexivity.
  - destruct (is_final p); reflexivity.
Qed.

Lemma injected_replace_shown (shown : option Phrase) (p : Phrase) :
  injected (replace_shown unicode_lower shown p) =
    match shown with
    | None => paste
    | Some q => if same_text q p then [] else undo ++ paste
    end.
Proof.
  destruct shown as [q|]; simpl; [|reflexivity].
  destruct (same_text q p); reflexivity.
Qed.

Lemma injected_app (t u : trace) : injected (t ++ u) = injected t ++ injected u.
Proof. apply filter_app. Qed.

Lemma keystrokes_app (t u : trace) :
  keystrokes (t ++ u) = keystrokes t ++ keystrokes u.
Proof. apply filter_app. Qed.

Lemma presses_app (key : hotkey) (t u : trace) :
  presses key (t ++ u) = presses key t + presses key u.
Proof. unfold presses. now rewrite filter_app, length_app. Qed.

(** What an accepted phrase does to the clipboard and the keyboard. *)
Lemma injected_accepted (p : Phrase) (s : SpeechToText) :
  low_accuracy config p = false ->
  injected (trace_of (type_text config unicode_lower p s)) =
    Copy (p.(text) ++ lit " ")
      :: match s.(interim_phrase) with
         | None => paste
         | Some q => if same_text q p then [] else undo ++ paste
         end.
Proof.
  intros H. rewrite (type_text_accepted p s H). unfold trace_of; simpl.
  fold (injected (replace_shown unicode_lower (interim_phrase s) p
                  ++ (if is_final p then [Log INFO (Final (text p))] else []))).
  rewrite injected_app, injected_replace_shown.
  destruct (is_final p); simpl; now rewrite app_nil_r.
Qed.

(** C1. For the phrases interim "he", interim "hell", final "hello" 0.9
    given to [type_text] in that order, the interim ones at or above the
    accuracy threshold, from a state with no interim phrase: the injector
    copies "he " and pastes; copies "hell ", undoes and pastes; copies
    "hello ", undoes and pastes, in that order and nothing else.  The
    interim phrase is set after each interim phrase and cleared after the
    final one only. *)
Theorem type_text_he_hell_hello (a1 a2 : float) (s0 : SpeechToText) :
  s0.(interim_phrase) = None ->
  (a1 <? threshold)%float = false ->
  (a2 <? threshold)%float = false ->
  let p1 := interim "he" a1 in
  let p2 := interim "hell" a2 in
  let p3 := final "hello" 0.9 in
  let r1 := type_text config unicode_lower p1 s0 in
  let r2 := type_text config unicode_lower p2 (state_of r1) in
  let r3 := type_text config unicode_lower p3 (state_of r2) in
  injected (trace_of r1) = Copy (lit "he ") :: paste
  /\ (state_of r1).(interim_phrase) = Some p1
  /\ injected (trace_of r2) = Copy (lit "hell ") :: undo ++ paste
  /\ (state_of r2).(interim_phrase) = Some p2
  /\ injected (trace_of r3) = Copy (lit "hello ") :: undo ++ paste
  /\ (state_of r3).(interim_phrase) = None
  /\ trace_of (for_each (type_text config unicode_lower) [p1; p2; p3] s0)
     = trace_of r1 ++ trace_of r2 ++ trace_of r3
  /\ result_of (for_each (type_text config unicode_lower) [p1; p2; p3] s0) = inr tt.
Proof.
  intros H0 H1 H2.
  destruct s0 as [aq tq st rec tr shown]; simpl in H0; subst shown.
  cbv zeta.
  unfold for_each, type_text, bind, log, emit, get, modify,
    state_of, trace_of, result_of; simpl.
  rewrite H1; simpl. rewrite H2; simpl.
  repeat split; reflexivity.
Qed.

(** C5. A phrase that is interim and whose accuracy is strictly below the
    accuracy threshold is dropped: [type_text] writes nothing to the
    clipboard, sends no key event, and leaves the object, so its interim
    phrase, as it was. *)
Theorem type_text_low_accuracy_interim (p : Phrase) (s : SpeechToText) :
  p.(is_final) = false ->
  (p.(accuracy) <? threshold)%float = true ->
  let r := type_text config unicode_lower p s in
  result_of r = inr tt
  /\ injected (trace_of r) = []
  /\ state_of r = s
  /\ (state_of r).(interim_phrase) = s.(interim_phrase).
Proof.
  intros Hf Ha r.
  assert (L : low_accuracy config p = true)
    by (unfold low_accuracy; now rewrite Hf, Ha).
  subst r. rewrite (type_text_dropped p s L).
  repeat split; reflexivity.
Qed.

(** C6. Of two consecutive interim phrases, both at or above the accuracy
    threshold, whose texts are equal once lowered, the second sends no key
    event at all (no paste, no undo), so the pair pastes at most once and
    undoes at most once. *)
Theorem type_text_duplicate_interim (p1 p2 : Phrase) (s : SpeechToText) :
  p1.(is_final) = false ->
  p2.(is_final) = false ->
  (p1.(accuracy) <? threshold)%float = false ->
  (p2.(accuracy) <? threshold)%float = false ->
  lower unicode_lower p1.(text) = lower unicode_lower p2.(text) ->
  let r1 := type_text config unicode_lower p1 s in
  let r2 := type_text config unicode_lower p2 (state_of r1) in
  keystrokes (trace_of r2) = []
  /\ presses KeyV (trace_of r1 ++ trace_of r2) <= 1
  /\ presses KeyZ (trace_of r1 ++ trace_of r2) <= 1.
Proof.
  intros F1 F2 A1 A2 Hsame r1 r2.
  assert (L1 : low_accuracy config p1 = false) by (unfold low_accuracy; now rewrite F1, A1).
  assert (L2 : low_accuracy config p2 = false) by (unfold low_accuracy; now rewrite F2, A2).
  assert (K2 : trace_of r2 =
               [Log DEBUG (PhraseRepr p2); Copy (p2.(text) ++ lit " ");
                Log DEBUG SameInterim]).
  { subst r2 r1. rewrite (type_text_accepted p1 s L1).
    unfold state_of; cbn [fst snd].
    rewrite (type_text_accepted p2 _ L2). unfold trace_of; cbn [snd].
    rewrite F1, F2. cbn [interim_phrase set_interim_phrase replace_shown].
    rewrite Hsame, eqb_refl. reflexivity. }
  rewrite !presses_app, K2. split; [reflexivity|].
  subst r1. rewrite (type_text_accepted p1 s L1). unfold trace_of; simpl snd.
  rewrite F1. unfold replace_shown.
  destruct (interim_phrase s) as [q|]; [destruct (same_text q p1)|];
    split; cbn; lia.
Qed.

(** C10, as the code has it.  A final phrase is never dropped for its
    accuracy: [type_text] writes its text and a space to the clipboard and
    clears the interim phrase; it pastes when no interim phrase is shown,
    undoes and pastes when the shown interim phrase has another text, and
    sends no key event when the shown interim phrase has the same text once
    lowered. *)
Theorem type_text_final_any_accuracy (p : Phrase) (s : SpeechToText) :
  p.(is_final) = true ->
  let r := type_text config unicode_lower p s in
  result_of r = inr tt
  /\ injected (trace_of r) =
       Copy (p.(text) ++ lit " ")
         :: match s.(interim_phrase) with
            | None => paste
            | Some q => if same_text q p then [] else undo ++ paste
            end
  /\ (state_of r).(interim_phrase) = None.
Proof.
  intros Hf r.
  assert (L : low_accuracy config p = false) by (unfold low_accuracy; now rewrite Hf).
  split; [|split].
  - subst r. now rewrite (type_text_accepted p s L).
  - subst r. apply (injected_accepted p s L).
  - subst r. rewrite (type_text_accepted p s L). unfold state_of; simpl.
    now rewrite Hf.
Qed.

End Injector.

(** ** The recognition session *)

Lemma bind_ok {A B} (m : M A) (k : A -> M B) (s s1 : SpeechToText) (a : A)
    (t1 : trace) :
  m s = (inr a, s1, t1) ->
  bind m k s = match k a s1 with (r, s2, t2) => (r, s2, t1 ++ t2) end.
Proof. unfold bind. now intros ->. Qed.

Lemma bind_raise {A B} (m : M A) (k : A -> M B) (s s1 : SpeechToText)
    (e : Exception) (t1 : trace) :
  m s = (inl e, s1, t1) ->
  bind m k s = (inl e, s1, t1).
Proof. unfold bind. now intros ->. Qed.

Lemma for_each_emit {A} (f : A -> event) (l : list A) (s : SpeechToText) :
  for_each (fun x => emit (f x)) l s = (inr tt, s, List.map f l).
Proof.
  induction l as [|x l IH]; cbn [for_each List.map]; [reflexivity|].
  rewrite (bind_ok _ _ s s tt [f x] eq_refl).
  now rewrite IH.
Qed.

(** [on_result] puts at most one phrase, built from its result. *)
Lemma on_result_run (result : Api.SpeechRecognitionResult) (s : SpeechToText) :
  exists items,
    on_result result s
      = (inr tt,
         set_transcription_text_queue (s.(transcription_text_queue) ++ items) s,
         [])
    /\ Forall (fun item => exists p, item = Some p /\ built_from result p) items.
Proof.
  unfold on_result. destruct (Api.alternatives result) as [|a others] eqn:Ha.
  - exists []. split; [|constructor].
    rewrite app_nil_r. now destruct s.
  - exists [Some (phrase_of result a)]. split; [reflexivity|].
    constructor; [|constructor].
    exists (phrase_of result a). split; [reflexivity|].
    exists a, others. repeat split; assumption.
Qed.

Lemma set_queue_twice (q1 q2 : list (option Phrase)) (s : SpeechToText) :
  set_transcription_text_queue q2 (set_transcription_text_queue q1 s)
  = set_transcription_text_queue q2 s.
Proof. reflexivity. Qed.

Lemma for_each_on_result (rs : list Api.SpeechRecognitionResult)
    (s : SpeechToText) :
  exists items,
    for_each on_result rs s
      = (inr tt,
         set_transcription_text_queue (s.(transcription_text_queue) ++ items) s,
         [])
    /\ Forall (fun item => exists p result,
                 item = Some p /\ In result rs /\ built_from result p) items.
Proof.
  revert s. induction rs as [|r rs IH]; intros s.
  - exists []. split; [|constructor]. simpl. rewrite app_nil_r. now destruct s.
  - destruct (on_result_run r s) as (i1 & E1 & F1).
    destruct (IH (set_transcription_text_queue
                    (s.(transcription_text_queue) ++ i1) s)) as (i2 & E2 & F2).
    exists (i1 ++ i2). split.
    + simpl. rewrite (bind_ok _ _ _ _ _ _ E1), E2. simpl.
      now rewrite app_assoc.
    + apply Forall_app. split.
      * eapply Forall_impl; [|exact F1].
        intros item (p & -> & B). exists p, r. repeat split; simpl; auto.
      * eapply Forall_impl; [|exact F2].
        intros item (p & r' & -> & I & B). exists p, r'.
        repeat split; simpl; auto.
Qed.

Lemma for_each_on_response (resps : list Api.StreamingRecognizeResponse)
    (s : SpeechToText) :
  exists items,
    for_each on_response resps s
      = (inr tt,
         set_transcription_text_queue (s.(transcription_text_queue) ++ items) s,
         [])
    /\ Forall (fun item => exists p response result,
                 item = Some p /\ In response resps
                 /\ In result response.(Api.results)
                 /\ built_from result p) items.
Proof.
  revert s. induction resps as [|resp resps IH]; intros s.
  - exists []. split; [|constructor]. simpl. rewrite app_nil_r. now destruct s.
  - assert (E : exists i1,
               on_response resp s
               = (inr tt,
                  set_transcription_text_queue
                    (s.(transcription_text_queue) ++ i1) s, [])
               /\ Forall (fun item => exists p result,
                            item = Some p /\ In result resp.(Api.results)
                            /\ built_from result p) i1).
    { unfold on_response.
      destruct (for_each_on_result resp.(Api.results) s) as (i & E & F).
      exists i. split; [|exact F].
      destruct (Api.results resp) eqn:R; exact E. }
    destruct E as (i1 & E1 & F1).
    destruct (IH (set_transcription_text_queue
                    (s.(transcription_text_queue) ++ i1) s)) as (i2 & E2 & F2).
    exists (i1 ++ i2). split.
    + simpl. rewrite (bind_ok _ _ _ _ _ _ E1), E2. simpl.
      now rewrite app_assoc.
    + apply Forall_app. split.
      * eapply Forall_impl; [|exact F1].
        intros item (p & r & -> & I & B). exists p, resp, r.
        repeat split; simpl; auto.
      * eapply Forall_impl; [|exact F2].
        intros item (p & resp' & r & -> & I1 & I2 & B). exists p, resp', r.
        repeat split; simpl; auto.
Qed.

Lemma drained_nil (q : list (option AudioChunk)) : drained q = [].
Proof. induction q as [|x q IH]; simpl; auto. Qed.

(** The [try] block, run: the phrases it puts, the queue it leaves, and how
    it ends. *)
Lemma stream_body_run (be : Backend) (s : SpeechToText) :
  exists items t,
    stream_body be s
      = (match raised be with Some e => inl e | None => inr tt end,
         set_transcription_text_queue (s.(transcription_text_queue) ++ items)
           (set_audio_queue (queue_at_exit be s) s),
         t)
    /\ Forall (from_backend be) items.
Proof.
  unfold stream_body, raised, queue_at_exit.
  destruct (credentials_error be) as [e0|] eqn:C.
  - exists [], [Log INFO LoadingCredentials; Log ERROR (CredentialsFailed e0)].
    split; [|constructor].
    assert (Hc : get_google_credentials be s
                 = (inl credentials_not_found, s,
                    [Log INFO LoadingCredentials; Log ERROR (CredentialsFailed e0)]))
      by (unfold get_google_credentials; rewrite C; reflexivity).
    rewrite (bind_raise _ _ _ _ _ _ Hc).
    rewrite app_nil_r. now destruct s.
  - destruct (generate_requests (demand be) (audio_queue s)) as [reqs rest] eqn:G.
    destruct (for_each_on_response be.(responses) (set_audio_queue rest s))
      as (items & E & F).
    exists items,
      ([Log INFO LoadingCredentials; Log INFO StartingStreaming]
         ++ List.map Request reqs).
    split; [|exact F].
    assert (Hc : get_google_credentials be s
                 = (inr tt, s, [Log INFO LoadingCredentials]))
      by (unfold get_google_credentials; rewrite C; reflexivity).
    rewrite (bind_ok _ _ _ _ _ _ Hc).
    rewrite (bind_ok _ _ s s tt [Log INFO StartingStreaming] eq_refl).
    rewrite (bind_ok _ _ s s (audio_queue s) [] eq_refl).
    rewrite G.
    rewrite (bind_ok _ _ _ (set_audio_queue rest s) tt [] eq_refl).
    rewrite (bind_ok _ _ _ _ _ _ (for_each_emit Request reqs _)).
    rewrite (bind_ok _ _ _ _ _ _ E).
    destruct (stream_error be); cbn; rewrite ?app_nil_r; reflexivity.
Qed.

(** A whole call of [transcribe_stream] that enters its [try] block. *)
Lemma transcribe_stream_run (be : Backend) (s : SpeechToText) :
  s.(is_transcribing) = false ->
  exists items t,
    transcribe_stream be s
      = (inr tt,
         {| audio_queue :=
              match raised be with
              | Some e => if is_stream_limit e then [] else queue_at_exit be s
              | None => queue_at_exit be s
              end;
            transcription_text_queue := s.(transcription_text_queue) ++ items;
            audio_stream := s.(audio_stream);
            is_recording :=
              match raised be with
              | Some _ => false
              | None => s.(is_recording)
              end;
            is_transcribing := false;
            interim_phrase := s.(interim_phrase) |},
         t ++ match raised be with
              | Some e => except_steps e
              | None => []
              end ++ finally_steps)
    /\ Forall (from_backend be) items.
Proof.
  intros H.
  destruct (stream_body_run be (set_is_transcribing true s)) as (items & t & E & F).
  exists items, ([Acquire; Store IsTranscribing true; Release] ++ t).
  split; [|exact F].
  unfold transcribe_stream.
  assert (L : with_lock
                (t0 <- get is_transcribing ;;
                 if t0 : bool then log DEBUG TranscriptionAlready ;; ret false
                 else store_is_transcribing true ;; ret true) s
              = (inr true, set_is_transcribing true s,
                 [Acquire; Store IsTranscribing true; Release]))
    by (unfold with_lock, try_finally, bind, get, emit; simpl;
        rewrite H; reflexivity).
  rewrite (bind_ok _ _ _ _ _ _ L).
  unfold try_finally, try_except. rewrite E.
  destruct (raised be) as [e|]; [|destruct s; reflexivity].
  unfold on_exception, except_steps.
  destruct (is_stream_limit e); destruct s; simpl;
    rewrite ?drained_nil, <- ?app_assoc; reflexivity.
Qed.

(** C2, as the code has it.  An exception raised inside [transcribe_stream]
    whose text contains both "400" and "maximum allowed stream duration" is
    not propagated; the call leaves [is_recording] and [is_transcribing]
    false and the audio queue empty, and logs the stop at info level. *)
Theorem transcribe_stream_stream_limit (be : Backend) (s : SpeechToText)
    (e : Exception) :
  s.(is_transcribing) = false ->
  raised be = Some e ->
  contains (lit "400") e.(exc_text) = true ->
  contains (lit "maximum allowed stream duration") e.(exc_text) = true ->
  let r := transcribe_stream be s in
  result_of r = inr tt
  /\ (state_of r).(is_recording) = false
  /\ (state_of r).(is_transcribing) = false
  /\ (state_of r).(audio_queue) = []
  /\ exists t,
       trace_of r
       = t ++ [Log CRITICAL (CriticalError e);
               Acquire; Store IsRecording false; Store IsTranscribing false;
               Release; Log INFO StoppedByStreamLimit]
           ++ finally_steps.
Proof.
  intros H R C1 C2 r.
  assert (L : is_stream_limit e = true)
    by (unfold is_stream_limit; now rewrite C1, C2).
  destruct (transcribe_stream_run be s H) as (items & t & E & _).
  subst r. rewrite E, R.
  unfold result_of, state_of, trace_of, except_steps; cbn [fst snd].
  cbn [is_recording is_transcribing audio_queue]. rewrite L.
  repeat split. now exists t.
Qed.

(** C3, as the code has it.  Any other exception raised inside
    [transcribe_stream] is not propagated either, and the call clears
    [is_recording] and [is_transcribing] under the lock the same way and
    logs the stop at error level; the audio queue is not drained: it stays
    as the [try] block left it. *)
Theorem transcribe_stream_other_error (be : Backend) (s : SpeechToText)
    (e : Exception) :
  s.(is_transcribing) = false ->
  raised be = Some e ->
  is_stream_limit e = false ->
  let r := transcribe_stream be s in
  result_of r = inr tt
  /\ (state_of r).(is_recording) = false
  /\ (state_of r).(is_transcribing) = false
  /\ (state_of r).(audio_queue) = queue_at_exit be s
  /\ exists t,
       trace_of r
       = t ++ [Log CRITICAL (CriticalError e);
               Acquire; Store IsRecording false; Store IsTranscribing false;
               Release; Log ERROR StoppedByError]
           ++ finally_steps.
Proof.
  intros H R L r.
  destruct (transcribe_stream_run be s H) as (items & t & E & _).
  subst r. rewrite E, R.
  unfold result_of, state_of, trace_of, except_steps; cbn [fst snd].
  cbn [is_recording is_transcribing audio_queue]. rewrite L.
  repeat split. now exists t.
Qed.

(** C7. However a call of [transcribe_stream] leaves its [try] block (the
    response loop ends, the stream limit is hit, or anything else is
    raised), the call returns without an exception, [is_transcribing] is
    false, and the last steps of the call are the [finally] clause: the flag
    is stored false between taking and releasing the lock. *)
Theorem transcribe_stream_finally (be : Backend) (s : SpeechToText) :
  s.(is_transcribing) = false ->
  let r := transcribe_stream be s in
  result_of r = inr tt
  /\ (state_of r).(is_transcribing) = false
  /\ exists t,
       trace_of r
       = t ++ [Acquire; Store IsTranscribing false; Release;
               Log INFO StreamCompleted].
Proof.
  intros H r.
  destruct (transcribe_stream_run be s H) as (items & t & E & _).
  subst r. rewrite E.
  unfold result_of, state_of, trace_of; cbn [fst snd is_transcribing].
  repeat split.
  exists (t ++ match raised be with Some e => except_steps e | None => [] end).
  now rewrite <- app_assoc.
Qed.

(** [transcribe_stream] while a session is open: nothing happens but the
    notice. *)
Lemma transcribe_stream_busy (be : Backend) (s : SpeechToText) :
  s.(is_transcribing) = true ->
  transcribe_stream be s
  = (inr tt, s, [Acquire; Log DEBUG TranscriptionAlready; Release]).
Proof.
  intros H. unfold transcribe_stream, with_lock, try_finally, bind, get, emit, log.
  simpl. rewrite H. reflexivity.
Qed.

(** C4. Every item [transcribe_stream] puts on the phrase queue is a phrase
    built from a result of a response and the first of its alternatives.
    Its text is the transcript without its surrounding whitespace: the
    transcript is the text between two runs of whitespace, and the text
    neither starts nor ends with whitespace.  Its [is_final] is the one of
    the result.  Its accuracy is the confidence of the alternative (final)
    or the stability of the result (interim) rounded to two decimal places,
    whatever float that is: the float [h / 100] for the integer [h] nearest
    to a hundred times the value, ties to even. *)
Theorem transcribe_stream_phrases (be : Backend) (s : SpeechToText) :
  exists items,
    (state_of (transcribe_stream be s)).(transcription_text_queue)
    = s.(transcription_text_queue) ++ items
    /\ Forall
         (fun item =>
            exists p response result alternative others,
              item = Some p
              /\ In response be.(responses)
              /\ In result response.(Api.results)
              /\ result.(Api.alternatives) = alternative :: others
              /\ p.(text) = strip alternative.(Api.transcript)
              /\ stripped_of alternative.(Api.transcript) p.(text)
              /\ p.(is_final) = result.(Api.is_final)
              /\ p.(accuracy) =
                   Float.round2 (if result.(Api.is_final)
                                 then alternative.(Api.confidence)
                                 else result.(Api.stability))
              /\ rounded_to_hundredths
                   (if result.(Api.is_final)
                    then alternative.(Api.confidence)
                    else result.(Api.stability))
                   p.(accuracy))
         items.
Proof.
  destruct (is_transcribing s) eqn:H.
  - exists []. split; [|constructor].
    rewrite (transcribe_stream_busy be s H). unfold state_of; simpl.
    now rewrite app_nil_r.
  - destruct (transcribe_stream_run be s H) as (items & t & E & F).
    exists items. split; [now rewrite E|].
    eapply Forall_impl; [|exact F].
    intros item (p & response & result & -> & I1 & I2 & a & others & B).
    destruct B as (Ha & Ht & Hf & Hacc).
    exists p, response, result, a, others.
    split; [reflexivity|]. split; [exact I1|]. split; [exact I2|].
    split; [exact Ha|]. split; [exact Ht|].
    split; [rewrite Ht; apply strip_strips|].
    split; [exact Hf|]. split; [exact Hacc|].
    rewrite Hacc. apply round2_rounds.
Qed.

(** ** Audio capture *)

(** C8. [start_recording] while [is_recording] is true takes the lock, logs
    the one notice that recording is in progress, and returns: no input
    stream is opened and the object is unchanged.  [stop_recording] while
    [is_recording] is false takes the lock, logs its notice and returns:
    nothing is put on the audio queue and the object is unchanged. *)
Theorem start_stop_idempotent (config : Config) (mic : Microphone)
    (s1 s2 : SpeechToText) :
  s1.(is_recording) = true ->
  s2.(is_recording) = false ->
  start_recording config mic s1
  = (inr Returned, s1, [Acquire; Log DEBUG RecordingAlready; Release])
  /\ stop_recording s2
     = (inr tt, s2, [Acquire; Log DEBUG RecordingNotInProgress; Release]).
Proof.
  intros H1 H2. split.
  - unfold start_recording, with_lock, try_finally, bind, get, emit, log.
    simpl. rewrite H1. reflexivity.
  - unfold stop_recording, with_lock, try_finally, bind, get, emit, log.
    simpl. rewrite H2. reflexivity.
Qed.

(** ** What a method leaves alone *)

Section Keeps.

Context {F : Type} (f : SpeechToText -> F).

Lemma keeps_ret {A} (a : A) : keeps f (ret a).
Proof. intros s. reflexivity. Qed.

Lemma keeps_raise {A} (e : Exception) : keeps f (@raise A e).
Proof. intros s. reflexivity. Qed.

Lemma keeps_emit (ev : event) : keeps f (emit ev).
Proof. intros s. reflexivity. Qed.

Lemma keeps_get {A} (g : SpeechToText -> A) : keeps f (get g).
Proof. intros s. reflexivity. Qed.

Lemma keeps_modify (g : SpeechToText -> SpeechToText) :
  (forall s, f (g s) = f s) -> keeps f (modify g).
Proof. intros H s. apply H. Qed.

Lemma keeps_bind {A B} (m : M A) (k : A -> M B) :
  keeps f m -> (forall a, keeps f (k a)) -> keeps f (bind m k).
Proof.
  intros Hm Hk s. unfold bind, state_of.
  specialize (Hm s). unfold state_of in Hm.
  destruct (m s) as [[[e|a] s1] t1]; simpl in *; [exact Hm|].
  specialize (Hk a s1). unfold state_of in Hk.
  destruct (k a s1) as [[r s2] t2]; simpl in *. congruence.
Qed.

Lemma keeps_try_except {A} (m : M A) (h : Exception -> M A) :
  keeps f m -> (forall e, keeps f (h e)) -> keeps f (try_except m h).
Proof.
  intros Hm Hh s. unfold try_except, state_of.
  specialize (Hm s). unfold state_of in Hm.
  destruct (m s) as [[[e|a] s1] t1]; simpl in *; [|exact Hm].
  specialize (Hh e s1). unfold state_of in Hh.
  destruct (h e s1) as [[r s2] t2]; simpl in *. congruence.
Qed.

Lemma keeps_try_finally {A} (m : M A) (fin : M unit) :
  keeps f m -> keeps f fin -> keeps f (try_finally m fin).
Proof.
  intros Hm Hf s. unfold try_finally, state_of.
  specialize (Hm s). unfold state_of in Hm.
  destruct (m s) as [[r s1] t1]; simpl in *.
  specialize (Hf s1). unfold state_of in Hf.
  destruct (fin s1) as [[[e|u] s2] t2]; simpl in *; congruence.
Qed.

Lemma keeps_with_lock {A} (m : M A) : keeps f m -> keeps f (with_lock m).
Proof.
  intros Hm. unfold with_lock.
  apply keeps_bind; [apply keeps_emit|intros _].
  apply keeps_try_finally; [exact Hm|apply keeps_emit].
Qed.

Lemma keeps_for_each {A} (g : A -> M unit) (l : list A) :
  (forall x, keeps f (g x)) -> keeps f (for_each g l).
Proof.
  intros Hg. induction l as [|x l IH]; simpl.
  - apply keeps_ret.
  - apply keeps_bind; [apply Hg|intros _; exact IH].
Qed.

End Keeps.

(** One step of a proof that a method keeps a field. *)
Ltac keeps_step :=
  first
    [ apply keeps_ret | apply keeps_raise | apply keeps_emit | apply keeps_get
    | apply keeps_with_lock | apply keeps_try_finally
    | apply keeps_try_except; [|intros ?]
    | apply keeps_for_each; intros ?
    | apply keeps_modify; intros []; reflexivity
    | match goal with
      | |- keeps _ (if ?b then _ else _) => destruct b
      | |- keeps _ (match ?x with _ => _ end) => destruct x
      end
    | apply keeps_bind; [|intros ?] ].

Ltac keeps_all := repeat keeps_step.

Lemma stop_recording_keeps_interim : keeps interim_phrase stop_recording.
Proof.
  unfold stop_recording, store_is_recording, audio_queue_put, log. keeps_all.
Qed.

Lemma capture_loop_keeps_interim (config : Config) (script : list iteration) :
  keeps interim_phrase (capture_loop config script).
Proof.
  induction script as [|it script IH]; cbn [capture_loop].
  - unfold log. keeps_all.
  - apply keeps_bind; [apply keeps_get|intros r]. destruct r; [|apply keeps_ret].
    apply keeps_bind; [apply keeps_emit|intros _].
    apply keeps_bind;
      [destruct (stop_in_read it);
         [apply stop_recording_keeps_interim|apply keeps_ret]|intros _].
    destruct (read it) as [data overflowed|e].
    + apply keeps_bind; [destruct overflowed; unfold log; keeps_all|intros _].
      apply keeps_bind; [unfold audio_queue_put; keeps_all|intros _].
      apply keeps_bind; [apply keeps_emit|intros _].
      apply keeps_bind; [|intros _; exact IH].
      destruct (stop_meanwhile it);
        [apply stop_recording_keeps_interim|apply keeps_ret].
    + unfold log. keeps_all.
Qed.

Lemma start_recording_keeps_interim (config : Config) (mic : Microphone) :
  keeps interim_phrase (start_recording config mic).
Proof.
  unfold start_recording, store_is_recording, log.
  apply keeps_bind; [keeps_all|intros go_on]. destruct go_on; [|apply keeps_ret].
  apply keeps_bind; [apply keeps_emit|intros _].
  apply keeps_bind; [keeps_all|intros opened]. destruct opened; [|apply keeps_ret].
  apply keeps_bind; [apply keeps_emit|intros _].
  apply keeps_bind; [apply capture_loop_keeps_interim|intros o].
  destruct o; keeps_all.
Qed.

Lemma transcribe_stream_keeps_interim (be : Backend) :
  keeps interim_phrase (transcribe_stream be).
Proof.
  intros s. destruct (is_transcribing s) eqn:H.
  - now rewrite (transcribe_stream_busy be s H).
  - destruct (transcribe_stream_run be s H) as (items & t & E & _).
    now rewrite E.
Qed.

(** ** The interim phrase *)

(** C9, as the code has it.  [type_text] alone writes [interim_phrase]: a
    dropped phrase leaves it, an accepted interim phrase sets it to itself,
    a final phrase clears it.  [stop_recording], [start_recording] and
    [transcribe_stream] never change it, so stopping the pipeline does not
    clear it. *)
Theorem interim_phrase_lifetime (config : Config) (unicode_lower : str -> str) :
  (forall p s,
     (state_of (type_text config unicode_lower p s)).(interim_phrase)
     = if low_accuracy config p then s.(interim_phrase)
       else if p.(is_final) then None else Some p)
  /\ keeps interim_phrase stop_recording
  /\ (forall mic, keeps interim_phrase (start_recording config mic))
  /\ (forall be, keeps interim_phrase (transcribe_stream be)).
Proof.
  split; [|split; [|split]].
  - intros p s. destruct (low_accuracy config p) eqn:L.
    + now rewrite (type_text_dropped config unicode_lower p s L).
    + rewrite (type_text_accepted config unicode_lower p s L).
      unfold state_of; simpl. reflexivity.
  - apply stop_recording_keeps_interim.
  - intros mic. apply start_recording_keeps_interim.
  - intros be. apply transcribe_stream_keeps_interim.
Qed.

(** ** The specification's examples *)

Example round2_08333 : Float.round2 0.8333 = 0.83%float.
Proof. reflexivity. Qed.

(** At 0.8333, of value [m * 2^e] with [100 * m * 2^e] between 83 and 83.5,
    the hundredths are 83. *)
Example hundredths_08333 :
  exists sg m e,
    Prim2SF 0.8333 = S754_finite sg m e
    /\ Float.hundredths m e = 83%Z
    /\ nearest_even (100 * Zpos m * 2 ^ Z.max e 0) (2 ^ Z.max (- e) 0) 83.
Proof.
  eexists _, _, _. split; [reflexivity|]. split; [reflexivity|].
  split; [vm_compute; discriminate|vm_compute; discriminate].
Qed.

Example round2_ties_to_even : Float.round2 0.125 = 0.12%float.
Proof. reflexivity. Qed.

Example round2_of_round2 : Float.round2 (Float.round2 0.8333) = 0.83%float.
Proof. reflexivity. Qed.

Example strip_hello : strip (lit "  hello ") = lit "hello".
Proof. reflexivity. Qed.

Example session_hello :
  (state_of (transcribe_stream be_hello init)).(transcription_text_queue)
  = [Some (final "hello" 0.83)].
Proof. reflexivity. Qed.

(** Threshold filtering: with the threshold 0.7, an interim phrase of
    accuracy 0.5 is not injected. *)
Example threshold_filtering :
  injected (trace_of (type_text default_config (fun t => t)
                        (interim "he" 0.5) init)) = [].
Proof. reflexivity. Qed.

(** Queue shutdown: the sentinel ends the request generator. *)
Example sentinel_ends_requests :
  generate_requests 5 [Some chunk0; None; Some chunk0] = ([chunk0], [Some chunk0]).
Proof. reflexivity. Qed.

(** ** Where the specification and the code part *)

(** C2 fails as stated: the text contains "maximum allowed stream duration"
    but not "400"; the chunk stays on the audio queue and the stop is logged
    at error level. *)
Lemma stream_duration_without_400 :
  let e := {| exc_text := lit "Exceeded maximum allowed stream duration of 305 seconds." |} in
  let r := transcribe_stream
             (be_fails "Exceeded maximum allowed stream duration of 305 seconds.")
             recording_one_chunk in
  raised (be_fails "Exceeded maximum allowed stream duration of 305 seconds.") = Some e
  /\ contains (lit "maximum allowed stream duration") e.(exc_text) = true
  /\ (state_of r).(audio_queue) = [Some chunk0]
  /\ (state_of r).(audio_queue) <> []
  /\ In (Log ERROR StoppedByError) (trace_of r).
Proof.
  cbv zeta. repeat split; try reflexivity.
  - discriminate.
  - vm_compute. tauto.
Qed.

(** C3 fails as stated: after an error that is not the stream limit the
    audio queue is not drained. *)
Lemma other_error_not_drained :
  let e := {| exc_text := lit "503 Service Unavailable" |} in
  let r := transcribe_stream (be_fails "503 Service Unavailable")
             recording_one_chunk in
  raised (be_fails "503 Service Unavailable") = Some e
  /\ is_stream_limit e = false
  /\ (state_of r).(is_recording) = false
  /\ (state_of r).(audio_queue) = [Some chunk0]
  /\ (state_of r).(audio_queue) <> [].
Proof.
  cbv zeta. repeat split; try reflexivity. discriminate.
Qed.

(** C9 fails as stated: one whole run of the pipeline (capture, stopped by
    [stop_recording]; the session, which hears one interim phrase; the
    sentinel on the phrase queue; the text worker) ends with every worker
    returned, both flags false and both queues empty, and the interim phrase
    still set. *)
Lemma interim_phrase_survives_stop :
  let r1 := start_recording default_config mic_once init in
  let r2 := transcribe_stream be_he (state_of r1) in
  let r3 := text_output_queue_put None (state_of r2) in
  let r4 := _text_input_worker default_config (fun t => t) (state_of r3) in
  result_of r1 = inr Returned
  /\ In (Log INFO StopSignalSent) (trace_of r1)
  /\ result_of r2 = inr tt
  /\ result_of r4 = inr Returned
  /\ (state_of r4).(is_recording) = false
  /\ (state_of r4).(is_transcribing) = false
  /\ (state_of r4).(audio_queue) = []
  /\ (state_of r4).(transcription_text_queue) = []
  /\ (state_of r4).(interim_phrase) = Some (interim "he" 0.9)
  /\ (state_of r4).(interim_phrase) <> None.
Proof.
  cbv zeta. repeat split; try reflexivity.
  - vm_compute. tauto.
  - discriminate.
Qed.

(** C10 fails as stated: a final phrase with the text of the interim phrase
    on screen writes the clipboard but sends no key event. *)
Lemma final_same_text_not_pasted :
  let p := final "hello" 0 in
  let r := type_text default_config (fun t => t) p hello_shown in
  p.(is_final) = true
  /\ hello_shown.(interim_phrase) = Some (interim "hello" 0.9)
  /\ injected (trace_of r) = [Copy (lit "hello ")]
  /\ keystrokes (trace_of r) = [].
Proof.
  cbv zeta. repeat split; reflexivity.
Qed.

(** ** The theorems at work *)

Lemma type_text_he_hell_hello_at_defaults :
  init.(interim_phrase) = None
  /\ (0.8 <? default_config.(speech).(accuracy_threshold))%float = false
  /\ (0.85 <? default_config.(speech).(accuracy_threshold))%float = false
  /\ injected (trace_of (type_text default_config (fun t => t)
                           (interim "he" 0.8) init))
     = Copy (lit "he ") :: paste.
Proof.
  split; [reflexivity|]. split; [reflexivity|]. split; [reflexivity|].
  exact (proj1 (type_text_he_hell_hello default_config (fun t => t)
                  0.8 0.85 init eq_refl eq_refl eq_refl)).
Defined.

Lemma type_text_low_accuracy_interim_at_defaults :
  (interim "he" 0.5).(is_final) = false
  /\ (0.5 <? 0.7)%float = true
  /\ injected (trace_of (type_text default_config (fun t => t)
                           (interim "he" 0.5) hello_shown)) = []
  /\ state_of (type_text default_config (fun t => t)
                 (interim "he" 0.5) hello_shown) = hello_shown.
Proof.
  split; [reflexivity|]. split; [reflexivity|].
  exact (conj
           (proj1 (proj2 (type_text_low_accuracy_interim default_config
                            (fun t => t) (interim "he" 0.5) hello_shown
                            eq_refl eq_refl)))
           (proj1 (proj2 (proj2 (type_text_low_accuracy_interim default_config
                                   (fun t => t) (interim "he" 0.5) hello_shown
                                   eq_refl eq_refl))))).
Defined.

Lemma type_text_duplicate_interim_at_defaults :
  lower (fun t => t) (lit "Hello") = lower (fun t => t) (lit "hello")
  /\ keystrokes
       (trace_of
          (type_text default_config (fun t => t) (interim "hello" 0.8)
             (state_of (type_text default_config (fun t => t)
                          (interim "Hello" 0.75) init)))) = [].
Proof.
  split; [reflexivity|].
  exact (proj1 (type_text_duplicate_interim default_config (fun t => t)
                  (interim "Hello" 0.75) (interim "hello" 0.8) init
                  eq_refl eq_refl eq_refl eq_refl eq_refl)).
Defined.

Lemma type_text_final_any_accuracy_at_zero :
  (final "hello" 0).(is_final) = true
  /\ injected (trace_of (type_text default_config (fun t => t)
                           (final "hello" 0) init))
     = Copy (lit "hello ") :: paste.
Proof.
  split; [reflexivity|].
  exact (proj1 (proj2 (type_text_final_any_accuracy default_config (fun t => t)
                         (final "hello" 0) init eq_refl))).
Defined.

Lemma transcribe_stream_stream_limit_at_305s :
  recording_one_chunk.(is_transcribing) = false
  /\ (state_of (transcribe_stream
                  (be_fails "400 Exceeded maximum allowed stream duration of 305 seconds.")
                  recording_one_chunk)).(audio_queue) = [].
Proof.
  split; [reflexivity|].
  exact (proj1 (proj2 (proj2 (proj2
    (transcribe_stream_stream_limit
       (be_fails "400 Exceeded maximum allowed stream duration of 305 seconds.")
       recording_one_chunk
       {| exc_text := lit "400 Exceeded maximum allowed stream duration of 305 seconds." |}
       eq_refl eq_refl eq_refl eq_refl))))).
Defined.

Lemma transcribe_stream_other_error_at_503 :
  recording_one_chunk.(is_transcribing) = false
  /\ is_stream_limit {| exc_text := lit "503 Service Unavailable" |} = false
  /\ (state_of (transcribe_stream (be_fails "503 Service Unavailable")
                  recording_one_chunk)).(is_recording) = false.
Proof.
  split; [reflexivity|]. split; [reflexivity|].
  exact (proj1 (proj2
    (transcribe_stream_other_error (be_fails "503 Service Unavailable")
       recording_one_chunk {| exc_text := lit "503 Service Unavailable" |}
       eq_refl eq_refl eq_refl))).
Defined.

Lemma transcribe_stream_finally_at_hello :
  init.(is_transcribing) = false
  /\ (state_of (transcribe_stream be_hello init)).(is_transcribing) = false.
Proof.
  split; [reflexivity|].
  exact (proj1 (proj2 (transcribe_stream_finally be_hello init eq_refl))).
Defined.

Lemma start_stop_idempotent_at_running :
  (state_of (start_recording default_config mic_running init)).(is_recording) = true
  /\ init.(is_recording) = false
  /\ start_recording default_config mic_once
       (state_of (start_recording default_config mic_running init))
     = (inr Returned,
        state_of (start_recording default_config mic_running init),
        [Acquire; Log DEBUG RecordingAlready; Release])
  /\ stop_recording init
     = (inr tt, init, [Acquire; Log DEBUG RecordingNotInProgress; Release]).
Proof.
  split; [reflexivity|]. split; [reflexivity|].
  exact (start_stop_idempotent default_config mic_once
           (state_of (start_recording default_config mic_running init)) init
           eq_refl eq_refl).
Defined.

(** ** More on audio capture *)

(** The capture loop with recording off leaves at once. *)
Lemma capture_loop_off (config : Config) (script : list iteration)
    (s : SpeechToText) :
  s.(is_recording) = false ->
  capture_loop config script s = (inr Returned, s, []).
Proof.
  intros R. destruct script; cbn [capture_loop]; unfold bind, get, ret;
    rewrite R; reflexivity.
Qed.

(** The capture loop with recording on, run: it never raises, it appends
    [captured script] to the audio queue, it ends as [capture_outcome
    script] says, and it changes nothing else but [is_recording], which a
    [stop_recording] of another thread clears. *)
Lemma capture_loop_run (config : Config) (script : list iteration)
    (s : SpeechToText) :
  s.(is_recording) = true ->
  exists t,
    capture_loop config script s
    = (inr (capture_outcome script),
       {| audio_queue := s.(audio_queue) ++ captured script;
          transcription_text_queue := s.(transcription_text_queue);
          audio_stream := s.(audio_stream);
          is_recording := negb (capture_stopped script);
          is_transcribing := s.(is_transcribing);
          interim_phrase := s.(interim_phrase) |},
       t)
    /\ Forall (fun ev => ev <> StreamStop /\ ev <> StreamClose) t.
Proof.
  revert s. induction script as [|it script IH]; intros s R.
  - exists []. split; [|constructor].
    destruct s as [aq tq st rc tr ip]; simpl in R; subst rc.
    cbn. rewrite app_nil_r. reflexivity.
  - destruct s as [aq tq st rc tr ip]; simpl in R; subst rc.
    cbn [capture_loop captured capture_outcome capture_stopped].
    destruct (stop_in_read it) eqn:Si; destruct (read it) as [data ov|e] eqn:Rd;
      [destruct (stop_meanwhile it) eqn:Sm; destruct ov
      |
      |destruct (stop_meanwhile it) eqn:Sm; [destruct ov|]
      | ].
    1-4: eexists; split;
      [unfold bind, get, emit, log, ret, audio_queue_put, modify,
         stop_recording, with_lock, try_finally, store_is_recording; simpl;
       rewrite capture_loop_off by reflexivity; simpl;
       rewrite <- ?app_assoc; reflexivity
      |repeat constructor; discriminate].
    1: eexists; split;
      [unfold bind, get, emit, log, ret, audio_queue_put, modify,
         stop_recording, with_lock, try_finally, store_is_recording; simpl;
       reflexivity
      |repeat constructor; discriminate].
    1-2: eexists; split;
      [unfold bind, get, emit, log, ret, audio_queue_put, modify,
         stop_recording, with_lock, try_finally, store_is_recording; simpl;
       rewrite capture_loop_off by reflexivity; simpl;
       rewrite <- ?app_assoc; reflexivity
      |repeat constructor; discriminate].
    + destruct (IH {| audio_queue := aq ++ [Some data];
                      transcription_text_queue := tq;
                      audio_stream := st;
                      is_recording := true;
                      is_transcribing := tr;
                      interim_phrase := ip |} eq_refl) as (t & E & N).
      exists (StreamRead config.(audio).(chunk)
                :: (if ov then [Log WARNING Overflow] else [])
                ++ Sleep :: t).
      split.
      * unfold bind, get, emit, log, ret, audio_queue_put, modify,
          set_audio_queue; simpl.
        destruct ov; simpl; rewrite E; simpl; rewrite <- ?app_assoc;
          reflexivity.
      * constructor; [split; discriminate|].
        apply Forall_app. split;
          [destruct ov; repeat constructor; discriminate|].
        constructor; [split; discriminate|exact N].
    + eexists; split;
      [unfold bind, get, emit, log, ret, audio_queue_put, modify; simpl;
       rewrite ?app_nil_r; reflexivity
      |repeat constructor; discriminate].
Qed.

(** A whole call of [start_recording] that passes its guard and opens the
    device. *)
Lemma start_recording_run (config : Config) (mic : Microphone)
    (s : SpeechToText) :
  s.(is_recording) = false ->
  device_failure mic = None ->
  exists t,
    start_recording config mic s
    = (inr (capture_outcome mic.(iterations)),
       {| audio_queue := s.(audio_queue) ++ captured mic.(iterations);
          transcription_text_queue := s.(transcription_text_queue);
          audio_stream := true;
          is_recording :=
            match capture_outcome mic.(iterations) with
            | Waiting => true
            | Returned => false
            end;
          is_transcribing := s.(is_transcribing);
          interim_phrase := s.(interim_phrase) |},
       t ++ match capture_outcome mic.(iterations) with
            | Waiting => []
            | Returned => release_steps
            end)
    /\ Forall (fun ev => ev <> StreamStop /\ ev <> StreamClose) t.
Proof.
  intros R D. unfold device_failure in D.
  destruct (open_error mic) eqn:Eo; [discriminate|].
  assert (R1 : is_recording (set_audio_stream true (set_is_recording true s))
               = true) by (now destruct s).
  destruct (capture_loop_run config mic.(iterations) _ R1) as (t & E & N).
  exists ([Acquire; Store IsRecording true; Release; Log INFO InitializingDevice;
           OpenInputStream config.(audio).(rate) config.(audio).(channels)
             config.(audio).(chunk);
           StreamStart; Log INFO DeviceOpened; Log INFO StartingRecording] ++ t).
  split.
  - unfold start_recording.
    assert (L : with_lock
                  (r <- get is_recording ;;
                   if r : bool then log DEBUG RecordingAlready ;; ret false
                   else store_is_recording true ;; ret true) s
                = (inr true, set_is_recording true s,
                   [Acquire; Store IsRecording true; Release]))
      by (unfold with_lock, try_finally, bind, get, emit; simpl;
          rewrite R; reflexivity).
    rewrite (bind_ok _ _ _ _ _ _ L).
    rewrite (bind_ok _ _ _ (set_is_recording true s) tt
               [Log INFO InitializingDevice] eq_refl).
    assert (O : try_except
                  (emit (OpenInputStream config.(audio).(rate)
                           config.(audio).(channels) config.(audio).(chunk)) ;;
                   match mic.(open_error) with
                   | Some e => raise e
                   | None => ret tt
                   end ;;
                   modify (set_audio_stream true) ;;
                   emit StreamStart ;;
                   match mic.(start_error) with
                   | Some e => raise e
                   | None => ret tt
                   end ;;
                   log INFO DeviceOpened ;;
                   ret true)
                  (fun e =>
                     log ERROR (DeviceOpenFailed e) ;;
                     log ERROR CheckMicrophone ;;
                     with_lock (store_is_recording false) ;;
                     ret false) (set_is_recording true s)
                = (inr true, set_audio_stream true (set_is_recording true s),
                   [OpenInputStream config.(audio).(rate)
                      config.(audio).(channels) config.(audio).(chunk);
                    StreamStart; Log INFO DeviceOpened]))
      by (rewrite Eo, D; reflexivity).
    rewrite (bind_ok _ _ _ _ _ _ O).
    rewrite (bind_ok _ _ _ (set_audio_stream true (set_is_recording true s)) tt
               [Log INFO StartingRecording] eq_refl).
    rewrite (bind_ok _ _ _ _ _ _ E).
    assert (W : capture_outcome mic.(iterations) = Waiting ->
                capture_stopped mic.(iterations) = false).
    { clear. induction (iterations mic) as [|it l IHl]; simpl; [reflexivity|].
      destruct (read it); [|discriminate].
      destruct (stop_in_read it); [discriminate|].
      destruct (stop_meanwhile it); [discriminate|]. exact IHl. }
    destruct s as [aq tq st rc tr ip]. simpl in R. subst rc.
    destruct (capture_outcome (iterations mic)).
    + unfold release_steps; cbn; rewrite <- ?app_assoc; reflexivity.
    + rewrite (W eq_refl). cbn. rewrite ?app_nil_r. reflexivity.
  - repeat (constructor; [split; discriminate|]). exact N.
Qed.

(** A call of [start_recording] that passes its guard and fails to open the
    device. *)
Lemma start_recording_failed (config : Config) (mic : Microphone)
    (s : SpeechToText) (e : Exception) :
  s.(is_recording) = false ->
  device_failure mic = Some e ->
  start_recording config mic s
  = (inr Returned,
     match mic.(open_error) with
     | Some _ => s
     | None => set_audio_stream true s
     end,
     [Acquire; Store IsRecording true; Release; Log INFO InitializingDevice;
      OpenInputStream config.(audio).(rate) config.(audio).(channels)
        config.(audio).(chunk)]
       ++ match mic.(open_error) with Some _ => [] | None => [StreamStart] end
       ++ [Log ERROR (DeviceOpenFailed e); Log ERROR CheckMicrophone;
           Acquire; Store IsRecording false; Release]).
Proof.
  intros R D. unfold device_failure in D.
  unfold start_recording, with_lock, try_finally, try_except, bind, get, emit,
    log, modify, store_is_recording, raise, ret.
  destruct s as [aq tq st rc tr ip]. simpl in R. subst rc. simpl.
  destruct (open_error mic) as [e0|].
  - injection D as ->. reflexivity.
  - rewrite D. reflexivity.
Qed.


(** X2. When the input device does not open, [start_recording] reports the
    error and returns: it reads no chunk, puts nothing on the audio queue,
    and leaves [is_recording] false. *)
Theorem start_recording_device_failure (config : Config) (mic : Microphone)
    (s : SpeechToText) (e : Exception) :
  s.(is_recording) = false ->
  device_failure mic = Some e ->
  let r := start_recording config mic s in
  result_of r = inr Returned
  /\ (state_of r).(is_recording) = false
  /\ (state_of r).(audio_queue) = s.(audio_queue)
  /\ In (Log ERROR (DeviceOpenFailed e)) (trace_of r)
  /\ filter is_stream_read (trace_of r) = [].
Proof.
  intros R D r. subst r. rewrite (start_recording_failed config mic s e R D).
  unfold result_of, state_of, trace_of; cbn [fst snd].
  repeat split.
  - destruct (open_error mic); destruct s; simpl in *; exact R.
  - destruct (open_error mic); destruct s; reflexivity.
  - destruct (open_error mic); simpl; tauto.
  - destruct (open_error mic); reflexivity.
Qed.

(** X3. A call of [start_recording] that opens the device appends to the
    audio queue exactly what its passes give, in order: the chunk of each
    read; the sentinel of a [stop_recording] that comes in during a read
    before the chunk of that read, the sentinel of one that comes in during
    the sleep after it; nothing after the first pass that met a stop or a
    failed read.  What was on the queue stays in front, the call ends as
    the passes say, and the phrase queue, [is_transcribing] and the interim
    phrase are untouched. *)
Theorem start_recording_appends (config : Config) (mic : Microphone)
    (s : SpeechToText) :
  s.(is_recording) = false ->
  device_failure mic = None ->
  let r := start_recording config mic s in
  result_of r = inr (capture_outcome mic.(iterations))
  /\ (state_of r).(audio_queue) = s.(audio_queue) ++ captured mic.(iterations)
  /\ (state_of r).(transcription_text_queue) = s.(transcription_text_queue)
  /\ (state_of r).(is_transcribing) = s.(is_transcribing)
  /\ (state_of r).(interim_phrase) = s.(interim_phrase).
Proof.
  intros R D r. subst r.
  destruct (start_recording_run config mic s R D) as (t & E & _).
  rewrite E. repeat split.
Qed.

(** X4. A call of [start_recording] that opens the device stops and closes
    it exactly once, as it returns: the last steps of a returned call are
    stream stop, stream close and the store of [is_recording] false under
    the lock, with no stop or close before them; a call still in its loop
    has neither stopped nor closed the stream. *)
Theorem start_recording_releases_device (config : Config) (mic : Microphone)
    (s : SpeechToText) :
  s.(is_recording) = false ->
  device_failure mic = None ->
  let r := start_recording config mic s in
  exists t,
    Forall (fun ev => ev <> StreamStop /\ ev <> StreamClose) t
    /\ ((result_of r = inr Returned
         /\ trace_of r
            = t ++ [StreamStop; StreamClose; Acquire; Store IsRecording false;
                    Release; Log INFO RecordingStopped])
        \/ (result_of r = inr Waiting /\ trace_of r = t)).
Proof.
  intros R D r. subst r.
  destruct (start_recording_run config mic s R D) as (t & E & N).
  exists t. split; [exact N|]. rewrite E.
  unfold result_of, trace_of; cbn [fst snd].
  destruct (capture_outcome mic.(iterations)); [left|right];
    split; try reflexivity.
  now rewrite app_nil_r.
Qed.

(** X5. Two calls of [stop_recording] in a row put one sentinel, not two:
    the second call changes nothing, and over both the audio queue gains the
    sentinel exactly when recording was on. *)
Theorem stop_recording_twice (s : SpeechToText) :
  let r1 := stop_recording s in
  let r2 := stop_recording (state_of r1) in
  state_of r2 = state_of r1
  /\ (state_of r2).(is_recording) = false
  /\ (state_of r2).(audio_queue)
     = s.(audio_queue) ++ (if s.(is_recording) then [None] else []).
Proof.
  destruct s as [aq tq st [|] tr ip]; cbv zeta; repeat split.
  simpl. now rewrite app_nil_r.
Qed.

(** ** More on the recognition session *)

(** X6. The request generator gives each chunk once and in queue order and
    drops none: the chunks it yields, then the sentinel if it took one, then
    the queue it leaves, make up the queue it found; and it yields no more
    chunks than it was asked for. *)
Theorem generate_requests_conserves (n : nat) (q : list (option AudioChunk)) :
  let yielded := fst (generate_requests n q) in
  let left := snd (generate_requests n q) in
  List.length yielded <= n
  /\ (q = List.map Some yielded ++ left
      \/ q = List.map Some yielded ++ None :: left).
Proof.
  revert q. induction n as [|n IH]; intros q; cbv zeta.
  - destruct q; simpl; (split; [lia|auto]).
  - destruct q as [|[c|] q']; simpl;
      [split; [lia|auto]| |split; [lia|auto]].
    specialize (IH q'). cbv zeta in IH.
    destruct (generate_requests n q') as [rs rest]. simpl in *.
    destruct IH as [L [E|E]]; (split; [lia|]); [left|right]; now f_equal.
Qed.


(** X7. Queue shutdown: when the sentinel follows the chunks on the queue
    and the client asks for more items than there are chunks, the generator
    yields exactly these chunks, takes the sentinel off the queue and leaves
    what came after it. *)
Theorem generate_requests_sentinel (n : nat) (chunks : list AudioChunk)
    (rest : list (option AudioChunk)) :
  List.length chunks < n ->
  generate_requests n (List.map Some chunks ++ None :: rest) = (chunks, rest).
Proof.
  revert n. induction chunks as [|c chunks IH]; intros [|n] L; simpl in *;
    try lia; [reflexivity|].
  now rewrite (IH n) by lia.
Qed.

(** The phrases of the results of one response, in order: one for each
    result that has an alternative. *)
Lemma for_each_on_result_exact (rs : list Api.SpeechRecognitionResult)
    (s : SpeechToText) :
  for_each on_result rs s
  = (inr tt,
     set_transcription_text_queue
       (s.(transcription_text_queue) ++ List.map Some (best_phrases rs)) s,
     []).
Proof.
  revert s. induction rs as [|r rs IH]; intros s.
  - simpl. rewrite app_nil_r. now destruct s.
  - cbn [for_each].
    assert (E : on_result r s
                = (inr tt,
                   set_transcription_text_queue
                     (s.(transcription_text_queue)
                        ++ List.map Some (best_phrases [r])) s, [])).
    { unfold on_result, best_phrases. simpl.
      destruct (Api.alternatives r); simpl.
      - rewrite app_nil_r. now destruct s.
      - reflexivity. }
    rewrite (bind_ok _ _ _ _ _ _ E), IH.
    destruct s; unfold best_phrases; simpl.
    destruct (Api.alternatives r); simpl; rewrite <- ?app_assoc; reflexivity.
Qed.

Lemma for_each_on_response_exact (resps : list Api.StreamingRecognizeResponse)
    (s : SpeechToText) :
  for_each on_response resps s
  = (inr tt,
     set_transcription_text_queue
       (s.(transcription_text_queue) ++ List.map Some (heard resps)) s,
     []).
Proof.
  revert s. induction resps as [|resp resps IH]; intros s.
  - simpl. rewrite app_nil_r. now destruct s.
  - cbn [for_each].
    assert (E : on_response resp s
                = (inr tt,
                   set_transcription_text_queue
                     (s.(transcription_text_queue)
                        ++ List.map Some (best_phrases resp.(Api.results))) s,
                   [])).
    { unfold on_response.
      pose proof (for_each_on_result_exact resp.(Api.results) s) as E.
      destruct (Api.results resp); [|exact E].
      simpl. rewrite app_nil_r. now destruct s. }
    rewrite (bind_ok _ _ _ _ _ _ E), IH.
    destruct s; unfold heard; simpl.
    rewrite map_app, <- app_assoc. reflexivity.
Qed.

(** A whole call of [transcribe_stream] that enters its [try] block and
    loads the credentials, with all it does. *)
Lemma transcribe_stream_exact (be : Backend) (s : SpeechToText) :
  s.(is_transcribing) = false ->
  be.(credentials_error) = None ->
  transcribe_stream be s
  = (inr tt,
     {| audio_queue :=
          match be.(stream_error) with
          | Some e =>
              if is_stream_limit e then []
              else snd (generate_requests be.(demand) s.(audio_queue))
          | None => snd (generate_requests be.(demand) s.(audio_queue))
          end;
        transcription_text_queue :=
          s.(transcription_text_queue) ++ List.map Some (heard be.(responses));
        audio_stream := s.(audio_stream);
        is_recording :=
          match be.(stream_error) with
          | Some _ => false
          | None => s.(is_recording)
          end;
        is_transcribing := false;
        interim_phrase := s.(interim_phrase) |},
     [Acquire; Store IsTranscribing true; Release;
      Log INFO LoadingCredentials; Log INFO StartingStreaming]
       ++ List.map Request (fst (generate_requests be.(demand) s.(audio_queue)))
       ++ match be.(stream_error) with
          | Some e => except_steps e
          | None => []
          end
       ++ finally_steps).
Proof.
  intros H C.
  unfold transcribe_stream.
  assert (L : with_lock
                (t0 <- get is_transcribing ;;
                 if t0 : bool then log DEBUG TranscriptionAlready ;; ret false
                 else store_is_transcribing true ;; ret true) s
              = (inr true, set_is_transcribing true s,
                 [Acquire; Store IsTranscribing true; Release]))
    by (unfold with_lock, try_finally, bind, get, emit; simpl;
        rewrite H; reflexivity).
  rewrite (bind_ok _ _ _ _ _ _ L).
  set (s0 := set_is_transcribing true s).
  assert (B : stream_body be s0
              = (match be.(stream_error) with
                 | Some e => inl e
                 | None => inr tt
                 end,
                 set_transcription_text_queue
                   (s.(transcription_text_queue)
                      ++ List.map Some (heard be.(responses)))
                   (set_audio_queue
                      (snd (generate_requests be.(demand) s.(audio_queue))) s0),
                 [Log INFO LoadingCredentials; Log INFO StartingStreaming]
                   ++ List.map Request
                        (fst (generate_requests be.(demand) s.(audio_queue))))).
  { unfold stream_body.
    assert (Hc : get_google_credentials be s0
                 = (inr tt, s0, [Log INFO LoadingCredentials]))
      by (unfold get_google_credentials; rewrite C; reflexivity).
    rewrite (bind_ok _ _ _ _ _ _ Hc).
    rewrite (bind_ok _ _ s0 s0 tt [Log INFO StartingStreaming] eq_refl).
    rewrite (bind_ok _ _ s0 s0 (audio_queue s0) [] eq_refl).
    replace (audio_queue s0) with (audio_queue s) by (now destruct s).
    destruct (generate_requests (demand be) (audio_queue s)) as [reqs rest].
    rewrite (bind_ok _ _ _ (set_audio_queue rest s0) tt [] eq_refl).
    rewrite (bind_ok _ _ _ _ _ _ (for_each_emit Request reqs _)).
    rewrite (bind_ok _ _ _ _ _ _ (for_each_on_response_exact _ _)).
    destruct (stream_error be); destruct s; cbn; rewrite ?app_nil_r;
      reflexivity. }
  unfold try_finally, try_except. rewrite B.
  destruct (stream_error be) as [e|].
  - unfold on_exception, except_steps.
    destruct (is_stream_limit e); destruct s; simpl;
      rewrite ?drained_nil, <- ?app_assoc; reflexivity.
  - destruct s; simpl; rewrite <- ?app_assoc; reflexivity.
Qed.

(** X8. A session that loads its credentials puts on the phrase queue, after
    what was there, exactly one phrase for each result that has an
    alternative, in the order of the responses and of the results within a
    response; the phrases heard before the stream fails are kept. *)
Theorem transcribe_stream_in_order (be : Backend) (s : SpeechToText) :
  s.(is_transcribing) = false ->
  be.(credentials_error) = None ->
  (state_of (transcribe_stream be s)).(transcription_text_queue)
  = s.(transcription_text_queue) ++ List.map Some (heard be.(responses)).
Proof.
  intros H C. now rewrite (transcribe_stream_exact be s H C).
Qed.

(** X9. A session sends the backend exactly the chunks its request
    generator yields, in order, and on a normal end of the stream leaves on
    the audio queue what the generator left and does not touch
    [is_recording]. *)
Theorem transcribe_stream_requests (be : Backend) (s : SpeechToText) :
  s.(is_transcribing) = false ->
  be.(credentials_error) = None ->
  let r := transcribe_stream be s in
  filter is_request (trace_of r)
  = List.map Request (fst (generate_requests be.(demand) s.(audio_queue)))
  /\ (be.(stream_error) = None ->
      (state_of r).(audio_queue)
      = snd (generate_requests be.(demand) s.(audio_queue))
      /\ (state_of r).(is_recording) = s.(is_recording)).
Proof.
  intros H C r. subst r. rewrite (transcribe_stream_exact be s H C).
  unfold state_of, trace_of; cbn [fst snd]. split.
  - cbn [app filter is_request]. rewrite filter_app.
    assert (F : forall l, filter is_request (List.map Request l)
                          = List.map Request l)
      by (induction l as [|x l IH]; simpl; [|rewrite IH]; reflexivity).
    rewrite F.
    assert (G : filter is_request
                  (match be.(stream_error) with
                   | Some e => except_steps e
                   | None => []
                   end ++ finally_steps) = []).
    { destruct (stream_error be) as [e|]; [|reflexivity].
      unfold except_steps. destruct (is_stream_limit e); reflexivity. }
    rewrite G. now rewrite app_nil_r.
  - intros ->. split; reflexivity.
Qed.


(** X11. When the credentials do not load, the session ends before it
    streams: no request is sent, nothing is taken off the audio queue,
    nothing is put on the phrase queue; the failure is logged with the cause
    and handled as an error that is not the stream limit, so [is_recording]
    and [is_transcribing] end false and nothing is raised. *)
Theorem transcribe_stream_no_credentials (be : Backend) (s : SpeechToText)
    (cause : Exception) :
  s.(is_transcribing) = false ->
  be.(credentials_error) = Some cause ->
  let r := transcribe_stream be s in
  result_of r = inr tt
  /\ filter is_request (trace_of r) = []
  /\ (state_of r).(audio_queue) = s.(audio_queue)
  /\ (state_of r).(transcription_text_queue) = s.(transcription_text_queue)
  /\ (state_of r).(is_recording) = false
  /\ (state_of r).(is_transcribing) = false
  /\ In (Log ERROR (CredentialsFailed cause)) (trace_of r)
  /\ In (Log CRITICAL (CriticalError credentials_not_found)) (trace_of r)
  /\ In (Log ERROR StoppedByError) (trace_of r).
Proof.
  intros H C r. subst r.
  unfold transcribe_stream, stream_body, get_google_credentials, with_lock,
    try_finally, try_except, bind, get, emit, log, raise, ret,
    store_is_transcribing, modify.
  destruct s as [aq tq st rc tr ip]. simpl in H. subst tr. simpl.
  rewrite C. simpl. repeat split; simpl; tauto.
Qed.

(** ** More on the text injector *)

(** X12. [type_text] writes no field of the object but the interim phrase:
    the two flags, the two queues and the audio stream are as before,
    whatever the phrase, and the call returns normally. *)
Theorem type_text_frame (config : Config) (unicode_lower : str -> str)
    (p : Phrase) (s : SpeechToText) :
  let r := type_text config unicode_lower p s in
  result_of r = inr tt
  /\ (state_of r).(is_recording) = s.(is_recording)
  /\ (state_of r).(is_transcribing) = s.(is_transcribing)
  /\ (state_of r).(audio_queue) = s.(audio_queue)
  /\ (state_of r).(transcription_text_queue) = s.(transcription_text_queue)
  /\ (state_of r).(audio_stream) = s.(audio_stream).
Proof.
  cbv zeta. destruct (low_accuracy config p) eqn:L.
  - rewrite (type_text_dropped config unicode_lower p s L).
    repeat split; reflexivity.
  - rewrite (type_text_accepted config unicode_lower p s L).
    destruct s; repeat split; reflexivity.
Qed.

(** X13. In one call [type_text] presses CTRL+V at most once and CTRL+Z at
    most once, never CTRL+Z without CTRL+V, and never CTRL+Z when no interim
    phrase is shown: text that a final phrase has committed is not undone. *)
Theorem type_text_undo_discipline (config : Config)
    (unicode_lower : str -> str) (p : Phrase) (s : SpeechToText) :
  let t := trace_of (type_text config unicode_lower p s) in
  presses KeyZ t <= presses KeyV t
  /\ presses KeyV t <= 1
  /\ (s.(interim_phrase) = None -> presses KeyZ t = 0).
Proof.
  cbv zeta. destruct (low_accuracy config p) eqn:L.
  - rewrite (type_text_dropped config unicode_lower p s L).
    unfold trace_of; cbn. repeat split; lia.
  - rewrite (type_text_accepted config unicode_lower p s L).
    unfold trace_of; cbn [snd]. unfold replace_shown.
    destruct (interim_phrase s) as [q|].
    + destruct (Str.eqb _ _); destruct (is_final p); cbn;
        (split; [lia|split; [lia|discriminate]]).
    + destruct (is_final p); cbn; repeat split; lia.
Qed.

Lemma for_each_app {A} (f : A -> M unit) (l1 l2 : list A) (s : SpeechToText) :
  (forall x s0, result_of (f x s0) = inr tt) ->
  state_of (for_each f (l1 ++ l2) s)
  = state_of (for_each f l2 (state_of (for_each f l1 s))).
Proof.
  intros Hf. revert s. induction l1 as [|x l1 IH]; intros s; [reflexivity|].
  cbn [app for_each]. unfold bind.
  pose proof (Hf x s) as Hx. unfold result_of in Hx.
  destruct (f x s) as [[r s1] t1]. simpl in Hx. subst r.
  specialize (IH s1).
  destruct (for_each f (l1 ++ l2) s1) as [[r2 s2] t2].
  destruct (for_each f l1 s1) as [[r3 s3] t3].
  unfold state_of in *. simpl in *. exact IH.
Qed.

Lemma type_text_result (config : Config) (unicode_lower : str -> str)
    (p : Phrase) (s : SpeechToText) :
  result_of (type_text config unicode_lower p s) = inr tt.
Proof.
  destruct (low_accuracy config p) eqn:L.
  - now rewrite (type_text_dropped config unicode_lower p s L).
  - now rewrite (type_text_accepted config unicode_lower p s L).
Qed.

(** X14. Whatever phrases came before, once a final phrase has been typed
    the interim phrase is none, and the phrase typed next sends no CTRL+Z:
    a new utterance never undoes the text of the one before. *)
Theorem after_final_no_undo (config : Config) (unicode_lower : str -> str)
    (before : list Phrase) (p next : Phrase) (s : SpeechToText) :
  p.(is_final) = true ->
  let s' := state_of (for_each (type_text config unicode_lower)
                        (before ++ [p]) s) in
  s'.(interim_phrase) = None
  /\ presses KeyZ (trace_of (type_text config unicode_lower next s')) = 0.
Proof.
  intros F s'.
  assert (I : s'.(interim_phrase) = None).
  { subst s'.
    rewrite (for_each_app _ before [p] s (type_text_result config unicode_lower)).
    cbn [for_each]. unfold bind.
    set (s1 := state_of (for_each (type_text config unicode_lower) before s)).
    assert (L : low_accuracy config p = false)
      by (unfold low_accuracy; now rewrite F).
    rewrite (type_text_accepted config unicode_lower p s1 L).
    unfold state_of; simpl. now rewrite F. }
  split; [exact I|].
  destruct (low_accuracy config next) eqn:L.
  - now rewrite (type_text_dropped config unicode_lower next s' L).
  - rewrite (type_text_accepted config unicode_lower next s' L).
    unfold trace_of; cbn [snd]. rewrite I. unfold replace_shown.
    destruct (is_final next); reflexivity.
Qed.

(** [type_text] does not look at the phrase queue. *)
Lemma type_text_set_queue (config : Config) (unicode_lower : str -> str)
    (p : Phrase) (q : list (option Phrase)) (s : SpeechToText) :
  type_text config unicode_lower p (set_transcription_text_queue q s)
  = (result_of (type_text config unicode_lower p s),
     set_transcription_text_queue q
       (state_of (type_text config unicode_lower p s)),
     trace_of (type_text config unicode_lower p s)).
Proof.
  destruct (low_accuracy config p) eqn:L.
  - now rewrite !(type_text_dropped config unicode_lower p _ L).
  - rewrite !(type_text_accepted config unicode_lower p _ L).
    destruct s; reflexivity.
Qed.

Lemma text_input_loop_run (config : Config) (unicode_lower : str -> str)
    (ps : list Phrase) (tail : list (option Phrase)) (s : SpeechToText) :
  (tail = [] \/ exists rest, tail = None :: rest) ->
  s.(transcription_text_queue) = List.map Some ps ++ tail ->
  text_input_loop config unicode_lower (List.map Some ps ++ tail) s
  = (inr (match tail with [] => Waiting | _ => Returned end),
     set_transcription_text_queue (List.tl tail)
       (state_of (for_each (type_text config unicode_lower) ps s)),
     trace_of (for_each (type_text config unicode_lower) ps s)).
Proof.
  intros T. revert s. induction ps as [|p ps IH]; intros s Hq.
  - destruct T as [->|[rest ->]]; [|reflexivity].
    destruct s; simpl in Hq; subst; reflexivity.
  - cbn [List.map app text_input_loop for_each].
    set (q := List.map Some ps ++ tail).
    pose proof (type_text_result config unicode_lower p s) as Rp.
    pose proof (type_text_set_queue config unicode_lower p q s) as Sq.
    unfold result_of, state_of, trace_of in Rp, Sq.
    destruct (type_text config unicode_lower p s) as [[r1 s1] t1] eqn:E1.
    cbn [fst snd] in Rp, Sq. subst r1.
    rewrite (bind_ok _ _ s (set_transcription_text_queue q s) tt [] eq_refl).
    rewrite (bind_ok _ _ _ _ _ _ Sq).
    rewrite (bind_ok _ _ _ _ _ _ E1).
    subst q. rewrite IH by (now destruct s1).
    assert (Q : forall l q0 s0,
               for_each (type_text config unicode_lower) l
                 (set_transcription_text_queue q0 s0)
               = (fst (fst (for_each (type_text config unicode_lower) l s0)),
                  set_transcription_text_queue q0
                    (snd (fst (for_each (type_text config unicode_lower) l s0))),
                  snd (for_each (type_text config unicode_lower) l s0))).
    { induction l as [|x l IHl]; intros q0 s0; [reflexivity|].
      cbn [for_each].
      pose proof (type_text_result config unicode_lower x s0) as Rx.
      pose proof (type_text_set_queue config unicode_lower x q0 s0) as Sx.
      unfold result_of, state_of, trace_of in Rx, Sx.
      destruct (type_text config unicode_lower x s0) as [[rx sx] tx] eqn:Ex.
      cbn [fst snd] in Rx, Sx. subst rx.
      rewrite (bind_ok _ _ _ _ _ _ Sx), (bind_ok _ _ _ _ _ _ Ex), IHl.
      destruct (for_each (type_text config unicode_lower) l sx) as [[rl sl] tl].
      reflexivity. }
    unfold state_of, trace_of. rewrite Q.
    destruct (for_each (type_text config unicode_lower) ps s1) as [[r2 s2] t2].
    cbn [fst snd]. rewrite set_queue_twice. reflexivity.
Qed.

(** X15. The text worker types the phrases on the phrase queue in order up
    to the first sentinel and returns there: the phrases before the sentinel
    are typed exactly as [type_text] types them one after the other, the
    sentinel is taken, and what follows it stays on the queue untyped. *)
Theorem text_input_worker_until_sentinel (config : Config)
    (unicode_lower : str -> str) (ps : list Phrase)
    (rest : list (option Phrase)) (s : SpeechToText) :
  s.(transcription_text_queue) = List.map Some ps ++ None :: rest ->
  let r := _text_input_worker config unicode_lower s in
  let typed := for_each (type_text config unicode_lower) ps s in
  result_of r = inr Returned
  /\ (state_of r).(transcription_text_queue) = rest
  /\ trace_of r = trace_of typed
  /\ (state_of r).(interim_phrase) = (state_of typed).(interim_phrase).
Proof.
  intros Q r typed. subst r typed. unfold _text_input_worker.
  rewrite (bind_ok _ _ s s (transcription_text_queue s) [] eq_refl), Q.
  rewrite (text_input_loop_run config unicode_lower ps (None :: rest) s
             (or_intror (ex_intro _ rest eq_refl)) Q).
  unfold result_of, state_of, trace_of; cbn [fst snd List.tl app].
  repeat split.
Qed.

(** X16. With no sentinel on the phrase queue the text worker types every
    phrase, empties the queue and goes on waiting: it does not return. *)
Theorem text_input_worker_no_sentinel (config : Config)
    (unicode_lower : str -> str) (ps : list Phrase) (s : SpeechToText) :
  s.(transcription_text_queue) = List.map Some ps ->
  let r := _text_input_worker config unicode_lower s in
  result_of r = inr Waiting
  /\ (state_of r).(transcription_text_queue) = []
  /\ trace_of r = trace_of (for_each (type_text config unicode_lower) ps s).
Proof.
  intros Q r. subst r. unfold _text_input_worker.
  rewrite (bind_ok _ _ s s (transcription_text_queue s) [] eq_refl), Q.
  rewrite <- (app_nil_r (List.map Some ps)) in *.
  rewrite (text_input_loop_run config unicode_lower ps [] s
             (or_introl eq_refl) Q).
  unfold result_of, state_of, trace_of; cbn [fst snd List.tl app].
  repeat split.
Qed.

(** ** Merging settings *)

Section MergeFacts.

Context {atom : Type}.

Import Merge.

Lemma eqb_neq (a b : str) : a <> b -> Str.eqb a b = false.
Proof.
  intros N. destruct (Str.eqb a b) eqn:E; [|reflexivity].
  apply eqb_eq in E. contradiction.
Qed.

Lemma lookup_assign_same (k : str) (v : value atom) (d : dict atom) :
  lookup k (assign k v d) = Some v.
Proof.
  induction d as [|k1 w rest IH]; simpl.
  - now rewrite eqb_refl.
  - destruct (Str.eqb k1 k) eqn:E; simpl; now rewrite E.
Qed.

Lemma lookup_assign_other (k k' : str) (v : value atom) (d : dict atom) :
  k <> k' -> lookup k' (assign k v d) = lookup k' d.
Proof.
  intros N. induction d as [|k1 w rest IH]; simpl.
  - now rewrite (eqb_neq _ _ N).
  - destruct (Str.eqb k1 k) eqn:E; simpl.
    + apply eqb_eq in E. subst k1. now rewrite (eqb_neq _ _ N).
    + now rewrite IH.
Qed.

Lemma merge_step (base : dict atom) (key : str) (v : value atom)
    (rest : dict atom) :
  _merge_dicts base (Item key v rest)
  = _merge_dicts (assign key (merged (lookup key base) v) base) rest.
Proof.
  cbn [_merge_dicts]. unfold merged.
  destruct (lookup key base) as [[a|sub]|]; destruct v as [b|o]; reflexivity.
Qed.

Lemma merge_keeps_unmentioned (k : str) (base override : dict atom) :
  lookup k override = None ->
  lookup k (_merge_dicts base override) = lookup k base.
Proof.
  revert base. induction override as [|k0 v rest IH]; intros base H.
  - reflexivity.
  - rewrite merge_step. simpl in H.
    destruct (Str.eqb k0 k) eqn:E; [discriminate|].
    rewrite (IH _ H). apply lookup_assign_other.
    intros ->. now rewrite eqb_refl in E.
Qed.

(** X17. After [_merge_dicts], a key of [override] holds in [base]: the
    merge of the two mappings when both [base] and [override] have a mapping
    there, and the value of [override] in every other case (the key is new,
    or either side is not a mapping). *)
Theorem merge_dicts_overridden (k : str) (v : value atom)
    (base override : dict atom) :
  unique_keys override ->
  lookup k override = Some v ->
  lookup k (_merge_dicts base override)
  = Some match lookup k base, v with
         | Some (Dict sub), Dict o => Dict (_merge_dicts sub o)
         | _, _ => v
         end.
Proof.
  change (match lookup k base, v with
          | Some (Dict sub), Dict o => Dict (_merge_dicts sub o)
          | _, _ => v
          end) with (merged (lookup k base) v).
  revert base. induction override as [|k0 v0 rest IH]; intros base U H.
  - discriminate.
  - rewrite merge_step. simpl in H, U. destruct U as [U0 U].
    destruct (Str.eqb k0 k) eqn:E.
    + apply eqb_eq in E. subst k0. injection H as ->.
      rewrite (merge_keeps_unmentioned k _ rest U0).
      apply lookup_assign_same.
    + rewrite (IH _ U H). f_equal. f_equal.
      apply lookup_assign_other. intros ->. now rewrite eqb_refl in E.
Qed.

(** X18. [_merge_dicts] leaves alone what [override] does not mention: a key
    that is not in [override] has in [base] the value it had, and no key of
    [base] is ever removed. *)
Theorem merge_dicts_keeps (k : str) (base override : dict atom) :
  (lookup k override = None ->
   lookup k (_merge_dicts base override) = lookup k base)
  /\ (lookup k base <> None ->
      lookup k (_merge_dicts base override) <> None).
Proof.
  split; [apply merge_keeps_unmentioned|].
  revert base. induction override as [|k0 v rest IH]; intros base H.
  - exact H.
  - rewrite merge_step. apply IH.
    destruct (Str.eqb k0 k) eqn:E.
    + apply eqb_eq in E. subst k0. now rewrite lookup_assign_same.
    + rewrite lookup_assign_other; [exact H|].
      intros ->. now rewrite eqb_refl in E.
Qed.

Lemma assign_unique (k : str) (v : value atom) (d : dict atom) :
  unique_keys d -> unique_keys (assign k v d).
Proof.
  induction d as [|k1 w rest IH]; simpl; [auto|].
  intros [H U]. destruct (Str.eqb k1 k) eqn:E; simpl; [auto|].
  split; [|auto].
  rewrite lookup_assign_other; [exact H|].
  intros ->. now rewrite eqb_refl in E.
Qed.

(** X19. [_merge_dicts] keeps [base] a proper mapping: when no key occurs
    twice in [base] before the call, none does after it. *)
Theorem merge_dicts_unique (base override : dict atom) :
  unique_keys base -> unique_keys (_merge_dicts base override).
Proof.
  revert base. induction override as [|k0 v rest IH]; intros base U.
  - exact U.
  - rewrite merge_step. apply IH. now apply assign_unique.
Qed.

Lemma assign_fresh (k : str) (v : value atom) (d : dict atom) :
  lookup k d = None -> assign k v d = append d (Item k v Empty).
Proof.
  induction d as [|k1 w rest IH]; simpl; [reflexivity|].
  destruct (Str.eqb k1 k); [discriminate|].
  intros H. now rewrite IH.
Qed.

Lemma append_assoc (a b c : dict atom) :
  append (append a b) c = append a (append b c).
Proof. induction a as [|k v rest IH]; simpl; [reflexivity|now rewrite IH]. Qed.

Lemma lookup_append_none (k : str) (a b : dict atom) :
  lookup k a = None -> lookup k b = None -> lookup k (append a b) = None.
Proof.
  induction a as [|k1 w rest IH]; simpl; [auto|].
  destruct (Str.eqb k1 k); [discriminate|auto].
Qed.

Lemma merge_disjoint (base override : dict atom) :
  unique_keys override ->
  (forall k, lookup k override <> None -> lookup k base = None) ->
  _merge_dicts base override = append base override.
Proof.
  revert base. induction override as [|k0 v rest IH]; intros base U D.
  - simpl. induction base as [|k v r IHb]; simpl; [reflexivity|].
    now rewrite <- IHb.
  - rewrite merge_step. simpl in U. destruct U as [U0 U].
    assert (B : lookup k0 base = None)
      by (apply D; simpl; rewrite eqb_refl; discriminate).
    rewrite B. cbn [merged]. rewrite (assign_fresh k0 v base B).
    rewrite IH; [now rewrite append_assoc|exact U|].
    intros k Hk. apply lookup_append_none.
    + apply D. simpl. destruct (Str.eqb k0 k); [discriminate|exact Hk].
    + simpl. destruct (Str.eqb k0 k) eqn:E; [|reflexivity].
      apply eqb_eq in E. subst k0. contradiction.
Qed.

(** X20. Merged into an empty mapping (no defaults file), [override] comes
    out as it is: the same keys in the same order with the same values. *)
Theorem merge_dicts_into_empty (override : dict atom) :
  unique_keys override -> _merge_dicts Empty override = override.
Proof.
  intros U. rewrite (merge_disjoint Empty override U); [reflexivity|].
  reflexivity.
Qed.

End MergeFacts.

(** ** The tray handlers *)

Section TrayFacts.

Import Tray.

(** X21. The stop hotkey while recording clears [is_recording], puts one
    sentinel on the audio queue and shows the waiting icon; while not
    recording it changes nothing and stops nothing. *)
Theorem stop_hotkey (w : TraySpeechApp) :
  let r := _on_stop_hotkey w in
  fst (fst r) = inr tt
  /\ (w.(app).(is_recording) = true ->
      (snd (fst r)).(app)
      = set_audio_queue (w.(app).(audio_queue) ++ [None])
          (set_is_recording false w.(app))
      /\ (snd (fst r)).(icon) = waiting_mode_icon)
  /\ (w.(app).(is_recording) = false ->
      snd (fst r) = w
      /\ snd r = [Engine Acquire; Engine Release]).
Proof.
  destruct w as [[aq tq st [|] tr ip] ex ic]; cbv zeta;
    (split; [reflexivity|]); split; intros H; try discriminate H;
    split; reflexivity.
Qed.

(** X22. The start hotkey while recording starts no thread and changes
    nothing; while not recording it shows the listening icon and starts the
    recording thread and then the transcription thread, one of each, and
    does not itself set [is_recording]. *)
Theorem start_hotkey (w : TraySpeechApp) :
  let r := _on_start_hotkey w in
  fst (fst r) = inr tt
  /\ (snd (fst r)).(app) = w.(app)
  /\ (w.(app).(is_recording) = true ->
      snd (fst r) = w /\ thread_starts (snd r) = [])
  /\ (w.(app).(is_recording) = false ->
      (snd (fst r)).(icon) = listening_mode_icon
      /\ thread_starts (snd r)
         = [start_recording_target; transcribe_stream_target]).
Proof.
  destruct w as [[aq tq st [|] tr ip] ex ic]; cbv zeta;
    (split; [reflexivity|]); (split; [reflexivity|]);
    split; intros H; try discriminate H; split; reflexivity.
Qed.

(** The start/stop hotkey does what the stop hotkey does while recording
    and what the start hotkey does otherwise: the same object after it and
    the same threads started. *)
Lemma start_stop_hotkey (w : TraySpeechApp) :
  let r := _on_start_stop_hotkey w in
  let d := if w.(app).(is_recording) then _on_stop_hotkey w
           else _on_start_hotkey w in
  fst r = fst d
  /\ thread_starts (snd r) = thread_starts (snd d).
Proof.
  destruct w as [[aq tq st [|] tr ip] ex ic]; cbv zeta; split; reflexivity.
Qed.

(** X23. The icon follows the engine: after a pass of the recording monitor
    the listening icon is shown only while [is_recording] is true, and the
    pass changes nothing of the engine. *)
Theorem monitor_reverts_icon (w : TraySpeechApp) :
  let w' := snd (fst (monitor_pass w)) in
  w'.(app) = w.(app)
  /\ (w.(app).(is_recording) = false -> w'.(icon) = waiting_mode_icon)
  /\ (w.(app).(is_recording) = true -> w'.(icon) = w.(icon)).
Proof.
  destruct w as [[aq tq st [|] tr ip] ex [|]]; cbv zeta;
    (split; [reflexivity|]); split; intros H; try discriminate H; reflexivity.
Qed.

(** X24. A failed session shows on the tray: when a session that entered its
    [try] block ends with an exception, the next pass of the recording
    monitor shows the waiting icon, whatever was shown before. *)
Theorem failed_session_reverts_icon (w : TraySpeechApp) (be : Backend)
    (e : Exception) :
  w.(app).(is_transcribing) = false ->
  raised be = Some e ->
  let w1 := snd (fst (on_app (transcribe_stream be) w)) in
  (snd (fst (monitor_pass w1))).(icon) = waiting_mode_icon.
Proof.
  intros H R w1.
  assert (F : w1.(app).(is_recording) = false).
  { subst w1. unfold on_app.
    destruct (transcribe_stream_run be w.(app) H) as (items & t & E & _).
    rewrite E, R. reflexivity. }
  destruct w1 as [[aq tq st rc tr ip] ex [|]]; simpl in F; subst rc;
    reflexivity.
Qed.

(** X25. [stop_app] marks the application as exiting, stops a recording in
    progress with one sentinel, then removes the hotkeys and stops the icon,
    in that order; it leaves the icon image as it is. *)
Theorem stop_app_shuts_down (w : TraySpeechApp) :
  let r := stop_app w in
  fst (fst r) = inr tt
  /\ (snd (fst r)).(should_exit) = true
  /\ (snd (fst r)).(icon) = w.(icon)
  /\ (snd (fst r)).(app).(is_recording) = false
  /\ (snd (fst r)).(app).(audio_queue)
     = w.(app).(audio_queue) ++ (if w.(app).(is_recording) then [None] else [])
  /\ exists t, snd r = t ++ [RemoveAllHotkeys; IconStop].
Proof.
  destruct w as [[aq tq st [|] tr ip] ex ic]; cbv zeta;
    repeat (split; [reflexivity|]).
  - exists [TrayLog INFO ShuttingDownMsg; Engine Acquire;
            Engine (Store IsRecording false); Engine Release;
            Engine (Log INFO StopSignalSent)].
    reflexivity.
  - split; [cbn; now rewrite app_nil_r|].
    exists [TrayLog INFO ShuttingDownMsg; Engine Acquire;
            Engine (Log DEBUG RecordingNotInProgress); Engine Release].
    reflexivity.
Qed.

End TrayFacts.

(** ** The further theorems at work *)

Example merge_user_into_defaults :
  Merge._merge_dicts yaml_defaults yaml_user
  = Merge.Item (lit "audio") (Merge.Scalar (lit "16000"))
      (Merge.Item (lit "speech")
         (Merge.Dict
            (Merge.Item (lit "language_code") (Merge.Scalar (lit "ru-RU"))
               (Merge.Item (lit "model") (Merge.Scalar (lit "latest_long"))
                  Merge.Empty)))
         Merge.Empty).
Proof. reflexivity. Qed.


Lemma start_recording_device_failure_at_broken :
  init.(is_recording) = false
  /\ device_failure mic_broken = Some {| exc_text := lit "Device unavailable" |}
  /\ (state_of (start_recording default_config mic_broken init)).(is_recording)
     = false.
Proof.
  split; [reflexivity|]. split; [reflexivity|].
  exact (proj1 (proj2
    (start_recording_device_failure default_config mic_broken init
       {| exc_text := lit "Device unavailable" |} eq_refl eq_refl))).
Defined.

Lemma start_recording_appends_at_stop_in_read :
  init.(is_recording) = false
  /\ device_failure mic_stop_in_read = None
  /\ result_of (start_recording default_config mic_stop_in_read init)
     = inr Returned
  /\ (state_of (start_recording default_config mic_stop_in_read init)).(audio_queue)
     = [Some chunk0; None; Some chunk1].
Proof.
  split; [reflexivity|]. split; [reflexivity|].
  exact (conj
           (proj1 (start_recording_appends default_config mic_stop_in_read
                     init eq_refl eq_refl))
           (proj1 (proj2 (start_recording_appends default_config
                            mic_stop_in_read init eq_refl eq_refl)))).
Defined.

Lemma start_recording_releases_device_at_once :
  init.(is_recording) = false
  /\ device_failure mic_once = None
  /\ exists t,
       Forall (fun ev => ev <> StreamStop /\ ev <> StreamClose) t
       /\ ((result_of (start_recording default_config mic_once init) = inr Returned
            /\ trace_of (start_recording default_config mic_once init)
               = t ++ [StreamStop; StreamClose; Acquire; Store IsRecording false;
                       Release; Log INFO RecordingStopped])
           \/ (result_of (start_recording default_config mic_once init) = inr Waiting
               /\ trace_of (start_recording default_config mic_once init) = t)).
Proof.
  split; [reflexivity|]. split; [reflexivity|].
  exact (start_recording_releases_device default_config mic_once init
           eq_refl eq_refl).
Defined.

Lemma generate_requests_sentinel_at_one :
  List.length [chunk0] < 5
  /\ generate_requests 5 (List.map Some [chunk0] ++ None :: [Some chunk0])
     = ([chunk0], [Some chunk0]).
Proof.
  split; [repeat constructor|].
  exact (generate_requests_sentinel 5 [chunk0] [Some chunk0]
           (le_S _ _ (le_S _ _ (le_S _ _ (le_n 2))))).
Defined.

Lemma transcribe_stream_in_order_at_hello :
  init.(is_transcribing) = false
  /\ be_hello.(credentials_error) = None
  /\ (state_of (transcribe_stream be_hello init)).(transcription_text_queue)
     = init.(transcription_text_queue) ++ List.map Some (heard be_hello.(responses)).
Proof.
  split; [reflexivity|]. split; [reflexivity|].
  exact (transcribe_stream_in_order be_hello init eq_refl eq_refl).
Defined.

Lemma transcribe_stream_requests_at_he :
  recording_one_chunk.(is_transcribing) = false
  /\ be_he.(credentials_error) = None
  /\ filter is_request (trace_of (transcribe_stream be_he recording_one_chunk))
     = List.map Request
         (fst (generate_requests be_he.(demand) recording_one_chunk.(audio_queue))).
Proof.
  split; [reflexivity|]. split; [reflexivity|].
  exact (proj1 (transcribe_stream_requests be_he recording_one_chunk
                  eq_refl eq_refl)).
Defined.


Lemma transcribe_stream_no_credentials_at_missing :
  init.(is_transcribing) = false
  /\ be_no_credentials.(credentials_error)
     = Some {| exc_text := lit "No such file or directory" |}
  /\ filter is_request (trace_of (transcribe_stream be_no_credentials init)) = [].
Proof.
  split; [reflexivity|]. split; [reflexivity|].
  exact (proj1 (proj2
    (transcribe_stream_no_credentials be_no_credentials init
       {| exc_text := lit "No such file or directory" |} eq_refl eq_refl))).
Defined.

Lemma after_final_no_undo_at_hello :
  (final "hello" 0.9).(is_final) = true
  /\ presses KeyZ
       (trace_of
          (type_text default_config (fun t => t) (interim "next" 0.9)
             (state_of
                (for_each (type_text default_config (fun t => t))
                   ([interim "he" 0.9] ++ [final "hello" 0.9]) init)))) = 0.
Proof.
  split; [reflexivity|].
  exact (proj2 (after_final_no_undo default_config (fun t => t)
                  [interim "he" 0.9] (final "hello" 0.9) (interim "next" 0.9)
                  init eq_refl)).
Defined.

Lemma text_input_worker_until_sentinel_at_he :
  (set_transcription_text_queue
     [Some (interim "he" 0.9); None; Some (final "late" 0.9)] init)
    .(transcription_text_queue)
  = List.map Some [interim "he" 0.9] ++ None :: [Some (final "late" 0.9)]
  /\ (state_of
        (_text_input_worker default_config (fun t => t)
           (set_transcription_text_queue
              [Some (interim "he" 0.9); None; Some (final "late" 0.9)] init)))
       .(transcription_text_queue)
     = [Some (final "late" 0.9)].
Proof.
  split; [reflexivity|].
  exact (proj1 (proj2
    (text_input_worker_until_sentinel default_config (fun t => t)
       [interim "he" 0.9] [Some (final "late" 0.9)]
       (set_transcription_text_queue
          [Some (interim "he" 0.9); None; Some (final "late" 0.9)] init)
       eq_refl))).
Defined.

Lemma text_input_worker_no_sentinel_at_he :
  (set_transcription_text_queue [Some (interim "he" 0.9)] init)
    .(transcription_text_queue)
  = List.map Some [interim "he" 0.9]
  /\ result_of
       (_text_input_worker default_config (fun t => t)
          (set_transcription_text_queue [Some (interim "he" 0.9)] init))
     = inr Waiting.
Proof.
  split; [reflexivity|].
  exact (proj1
    (text_input_worker_no_sentinel default_config (fun t => t)
       [interim "he" 0.9]
       (set_transcription_text_queue [Some (interim "he" 0.9)] init) eq_refl)).
Defined.

Lemma merge_dicts_overridden_at_speech :
  Merge.unique_keys yaml_user
  /\ Merge.lookup (lit "speech") yaml_user = Some (Merge.Dict speech_user)
  /\ Merge.lookup (lit "speech") (Merge._merge_dicts yaml_defaults yaml_user)
     = Some (Merge.Dict (Merge._merge_dicts speech_defaults speech_user)).
Proof.
  split; [exact (conj eq_refl I)|]. split; [reflexivity|].
  exact (merge_dicts_overridden (lit "speech") (Merge.Dict speech_user)
           yaml_defaults yaml_user (conj eq_refl I) eq_refl).
Defined.

Lemma merge_dicts_unique_at_defaults :
  Merge.unique_keys yaml_defaults
  /\ Merge.unique_keys (Merge._merge_dicts yaml_defaults yaml_user).
Proof.
  split; [exact (conj eq_refl (conj eq_refl I))|].
  exact (merge_dicts_unique yaml_defaults yaml_user
           (conj eq_refl (conj eq_refl I))).
Defined.

Lemma merge_dicts_into_empty_at_user :
  Merge.unique_keys yaml_user
  /\ Merge._merge_dicts Merge.Empty yaml_user = yaml_user.
Proof.
  split; [exact (conj eq_refl I)|].
  exact (merge_dicts_into_empty yaml_user (conj eq_refl I)).
Defined.

Lemma failed_session_reverts_icon_at_503 :
  tray_idle_listening.(Tray.app).(is_transcribing) = false
  /\ raised (be_fails "503 Service Unavailable")
     = Some {| exc_text := lit "503 Service Unavailable" |}
  /\ (snd (fst (Tray.monitor_pass
                  (snd (fst (Tray.on_app
                               (transcribe_stream
                                  (be_fails "503 Service Unavailable"))
                               tray_idle_listening)))))).(Tray.icon)
     = Tray.waiting_mode_icon.
Proof.
  split; [reflexivity|]. split; [reflexivity|].
  exact (failed_session_reverts_icon tray_idle_listening
           (be_fails "503 Service Unavailable")
           {| exc_text := lit "503 Service Unavailable" |} eq_refl eq_refl).
Defined.
